(** * multiflight: request coalescing for batch key lookups

    A shallow embedding of [multiflight.go].  The group's registry and the
    maps that loaders and [Do] return are Go maps, whose index expressions,
    assignments and [delete] go by Go's [==] on keys.  Entries live in a heap
    indexed by pointer, and a call of [Do] is a small thread whose atomic
    steps are the two critical sections of the source (guarded by [g.mu]),
    the loader call made outside the lock, and one step per [e.wg.Wait()] of
    the result loop.  Concurrent callers are interleavings of such threads. *)

From stdpp Require Import gmap strings list fin_maps relations pretty.
From Stdlib Require Import ZArith.

Local Open Scope Z_scope.

(** ** Go errors

    The source uses [errors.New] and [errors.Is].  An [error] value is a
    pointer to an error object, and [addr] is that pointer: [==] on two
    errors compares the pointers.  [errorString] is what [errors.New]
    returns, [wrapError] what [fmt.Errorf] returns with the verb percent-w
    (it has an [Unwrap] method), and [customError] is an error type of the
    caller's own with a method [Is(target error) bool], given as a predicate
    on the target's pointer. *)
Inductive error : Type :=
| errorString (addr : nat) (s : string)
| wrapError (addr : nat) (msg : string) (err : error)
| customError (addr : nat) (msg : string) (accepts : nat → bool).

Definition addr_of (e : error) : nat :=
  match e with
  | errorString a _ | wrapError a _ _ | customError a _ _ => a
  end.

(** [errors.Is(err, target)]: walk the [Unwrap] chain of [err] and report
    whether some error of the chain is [==] to [target] or has an [Is] method
    that accepts [target]. *)
Fixpoint errors_Is (err target : error) : bool :=
  Nat.eqb (addr_of err) (addr_of target) ||
  match err with
  | errorString _ _ => false
  | wrapError _ _ inner => errors_Is inner target
  | customError _ _ accepts => accepts (addr_of target)
  end.

(** [var errResultNotFound = errors.New("result not found")]: allocated once
    when the package is initialised; it is given address 0. *)
Definition errResultNotFound : error := errorString 0 "result not found".

(** ** Keys and Go maps

    [K comparable] admits key types with values that are not equal to
    themselves: a [float64] NaN, or a struct or an array that holds one.
    [reflexive k] is the outcome of [k == k].  The keys that are equal to
    themselves are taken up to [==]: two of them are [==] exactly when they
    are the same value of [K]; a key that is not equal to itself is [==] to
    no key.  [==] on keys never panics (the key type is not an interface
    type). *)
Class Comparable (K : Type) := reflexive : K → bool.

Section GoMap.
Context {K : Type} `{Countable K} `{!Comparable K} {X : Type}.

(** A [map[K]X].  [live] holds the bindings of the keys that are equal to
    themselves.  [dead] holds, in the order they were made, the bindings
    made under keys that are not: [len] counts them and [range] visits them,
    but no index expression finds them, no assignment replaces them and no
    [delete] removes them. *)
Record gomap : Type := GoMap { live : gmap K X; dead : list (K * X) }.

(** [make(map[K]X)]; also a nil map, as long as it is only read. *)
#[global] Instance gomap_empty : Empty gomap := GoMap ∅ [].

(** [x, has := m[k]] *)
#[global] Instance gomap_lookup : Lookup K X gomap :=
  λ k m, if reflexive k then live m !! k else None.

(** [m[k] = x] *)
#[global] Instance gomap_insert : Insert K X gomap :=
  λ k x m,
    if reflexive k then GoMap (<[k := x]> (live m)) (dead m)
    else GoMap (live m) (dead m ++ [(k, x)]).

(** [delete(m, k)] *)
#[global] Instance gomap_delete : Delete K gomap :=
  λ k m, if reflexive k then GoMap (delete k (live m)) (dead m) else m.

(** [len(m)] *)
Definition len (m : gomap) : nat := size (live m) + length (dead m).

End GoMap.

Arguments gomap : clear implicits.
Arguments gomap K {_ _} X.
Arguments GoMap {K _ _ X} live dead.

(** A pointer [*ent[K, V]] is an index into the heap of entries. *)
Abbreviation loc := nat (only parsing).

Section Multiflight.
(** [K comparable], [V any]; [zero] is Go's zero value of [V], the content
    of a fresh [ent.val]; [Ctx] is [context.Context]. *)
Context {K : Type} `{Countable K} `{!Comparable K} {V : Type} (zero : V) {Ctx : Type}.

(** [type ent struct { wg sync.WaitGroup; key K; val V; err error }];
    [wg] is the WaitGroup's counter and a nil [err] is [None]. *)
Record ent : Type := Ent { wg : Z; key : K; val : V; err : option error }.

(** [type Loader func(ctx, keys []K) (map[K]V, error)]; a nil map or a nil
    error is [None].  A call of [Do] invokes its loader at most once, so a
    function of the context and the keys stands for any loader that returns;
    each call carries its own. *)
Definition Loader : Type := Ctx → list K → option (gomap K V) * option error.

(** The shared state: the group's map [g.m] ([None] while it is nil), the
    heap of entries allocated by [new(ent[K, V])], and the sequence of
    loader invocations made so far, each with the number of the call of
    [Do] that made it and the key list the loader was passed. *)
Record World : Type := MkWorld {
  g_m : option (gomap K loc);
  heap : list ent;
  calls : list (nat * list K)
}.

(** The registry as a map: indexing or ranging over a nil map behaves as
    over an empty one. *)
Definition registry (w : World) : gomap K loc := default ∅ (g_m w).

(** [new(ent[K, V])], [e.key = key], [e.wg.Add(1)]. *)
Definition new_ent (k : K) : ent := Ent 1 k zero None.

(** The loop of lines 49-60, run inside the first critical section. *)
Fixpoint register (keys : list K) (m : gomap K loc) (h : list ent)
    (ents missEnts : list loc) : gomap K loc * list ent * list loc * list loc :=
  match keys with
  | [] => (m, h, ents, missEnts)
  | k :: keys' =>
      match m !! k with
      | Some e => register keys' m h (ents ++ [e]) missEnts
      | None =>
          let e := length h in
          register keys' (<[k := e]> m) (h ++ [new_ent k])
            (ents ++ [e]) (missEnts ++ [e])
      end
  end.

(** Lines 41-61: the first critical section of [Do]; it returns the new
    state with [ents] and [missEnts]. *)
Definition lockedRegister (w : World) (keys : list K)
    : World * list loc * list loc :=
  let m0 := match g_m w with Some m => m | None => ∅ end in
  let '(m, h, ents, missEnts) := register keys m0 (heap w) [] [] in
  (MkWorld (Some m) h (calls w), ents, missEnts).

(** [setCallResult]: [e.val = v; e.wg.Done(); delete(g.m, e.key)].  A
    pointer of the program always points into the heap. *)
Definition setCallResult (w : World) (e : loc) (v : V) : World :=
  match heap w !! e with
  | Some en =>
      MkWorld (delete (key en) <$> g_m w)
              (<[e := Ent (wg en - 1) (key en) v (err en)]> (heap w))
              (calls w)
  | None => w
  end.

(** [setCallErr]: [e.err = err; e.wg.Done(); delete(g.m, e.key)]. *)
Definition setCallErr (w : World) (e : loc) (er : error) : World :=
  match heap w !! e with
  | Some en =>
      MkWorld (delete (key en) <$> g_m w)
              (<[e := Ent (wg en - 1) (key en) (val en) (Some er)]> (heap w))
              (calls w)
  | None => w
  end.

(** Lines 87-90 of [doLoad]: the keys of the entries. *)
Definition entKeys (h : list ent) (ents : list loc) : list K :=
  omap (λ e, key <$> h !! e) ents.

(** Line 92 of [doLoad]: the loader is called, outside the lock, and the
    invocation is recorded for the caller [me]. *)
Definition callLoader (me : nat) (w : World) (ctx : Ctx) (ents : list loc)
    (load : Loader) : World * (option (gomap K V) * option error) :=
  let keys := entKeys (heap w) ents in
  (MkWorld (g_m w) (heap w) (calls w ++ [(me, keys)]), load ctx keys).

(** One iteration of the loop of lines 103-109. *)
Definition setFromVals (vals : option (gomap K V)) (w : World) (e : loc) : World :=
  match heap w !! e with
  | Some en =>
      match vals ≫= (.!! key en) with
      | Some v => setCallResult w e v
      | None => setCallErr w e errResultNotFound
      end
  | None => w
  end.

(** Lines 93-110 of [doLoad]: the second critical section, which hands the
    loader's outcome to every entry of the batch. *)
Definition fanOut (w : World) (ents : list loc)
    (r : option (gomap K V) * option error) : World :=
  match r.2 with
  | Some er => foldl (λ w e, setCallErr w e er) w ents
  | None => foldl (setFromVals r.1) w ents
  end.

(** One iteration of either loop of the second critical section. *)
Definition fan1 (r : option (gomap K V) * option error) (w : World) (e : loc)
    : World :=
  match r.2 with
  | Some er => setCallErr w e er
  | None => setFromVals r.1 w e
  end.

(** [doLoad] run without interruption. *)
Definition doLoad (me : nat) (w : World) (ctx : Ctx) (ents : list loc)
    (load : Loader) : World :=
  let '(w1, r) := callLoader me w ctx ents load in fanOut w1 ents r.

(** What [Do] returns: [(map[K]V, error)], either of which may be nil. *)
Definition Ret : Type := option (gomap K V) * option error.

(** The outcome of one iteration of the loop of lines 69-80 on a completed
    entry: go on with a result map, or return. *)
Inductive iter : Type :=
| Continue (result : gomap K V)
| Return (r : Ret).

Definition collect1 (en : ent) (result : gomap K V) : iter :=
  match err en with
  | Some er =>
      if errors_Is er errResultNotFound then Continue result
      else Return (None, Some er)
  | None => Continue (<[key en := val en]> result)
  end.

(** [e.wg.Wait()] returns once the counter is zero. *)
Definition completed (en : ent) : bool := bool_decide (wg en = 0).

(** Lines 68-82 read against one heap: [None] when some [Wait] that is
    reached would block on that heap. *)
Fixpoint collect (h : list ent) (ents : list loc) (result : gomap K V) : option Ret :=
  match ents with
  | [] => Some (Some result, None)
  | e :: ents' =>
      match h !! e with
      | Some en =>
          if completed en then
            match collect1 en result with
            | Continue result' => collect h ents' result'
            | Return r => Some r
            end
          else None
      | None => None
      end
  end.

(** [Do] run with no other goroutine, as call number [me]: the first
    critical section, [doLoad] when there are misses, then the result loop.
    The result is [None] when the call would wait for ever on an entry that
    nobody else completes. *)
Definition Do (me : nat) (w : World) (ctx : Ctx) (keys : list K) (load : Loader)
    : World * option Ret :=
  let '(w1, ents, missEnts) := lockedRegister w keys in
  let w2 := if bool_decide (0 < length missEnts)%nat
            then doLoad me w1 ctx missEnts load else w1 in
  (w2, collect (heap w2) ents ∅).

(** A fresh [Group[K, V]{}]. *)
Definition emptyWorld : World := MkWorld None [] [].

(** ** Concurrent callers

    A call of [Do] is a thread.  Its control points are the places where
    the source takes or releases [g.mu], calls the loader, or waits on an
    entry: everything between two of them touches only locals, or, for the
    critical sections, is made atomic by the mutex. *)
Inductive pc : Type :=
| PStart                                   (* line 41, before [withLock] *)
| PRegistered                              (* line 64, lock released *)
| PLoaded (r : option (gomap K V) * option error)  (* line 93, loader returned *)
| PCollect (rest : list loc) (result : gomap K V)  (* line 69, loop head *)
| PReturned (r : Ret).                     (* [Do] has returned [r] *)

(** The arguments of the call and its locals [ents] and [missEnts]. *)
Record thread : Type := MkThread {
  t_ctx : Ctx;
  t_keys : list K;
  t_load : Loader;
  t_ents : list loc;
  t_miss : list loc;
  t_pc : pc
}.

Definition at_pc (th : thread) (p : pc) : thread :=
  MkThread (t_ctx th) (t_keys th) (t_load th) (t_ents th) (t_miss th) p.

(** One atomic step of call number [me]; [None] when the call has returned
    or is blocked in [e.wg.Wait()]. *)
Definition thread_step (me : nat) (w : World) (th : thread)
    : option (World * thread) :=
  match t_pc th with
  | PStart =>
      let '(w1, ents, missEnts) := lockedRegister w (t_keys th) in
      Some (w1, MkThread (t_ctx th) (t_keys th) (t_load th) ents missEnts PRegistered)
  | PRegistered =>
      if bool_decide (0 < length (t_miss th))%nat then
        let '(w1, r) := callLoader me w (t_ctx th) (t_miss th) (t_load th) in
        Some (w1, at_pc th (PLoaded r))
      else Some (w, at_pc th (PCollect (t_ents th) ∅))
  | PLoaded r =>
      Some (fanOut w (t_miss th) r, at_pc th (PCollect (t_ents th) ∅))
  | PCollect [] result => Some (w, at_pc th (PReturned (Some result, None)))
  | PCollect (e :: rest) result =>
      match heap w !! e with
      | Some en =>
          if completed en then
            match collect1 en result with
            | Continue result' => Some (w, at_pc th (PCollect rest result'))
            | Return r => Some (w, at_pc th (PReturned r))
            end
          else None
      | None => None
      end
  | PReturned _ => None
  end.

(** The group with the calls made on it. *)
Definition Config : Type := World * list thread.

(** The scheduler lets call number [t] take one step; a call that cannot
    move leaves the configuration as it is. *)
Definition sched_step (c : Config) (t : nat) : Config :=
  match c.2 !! t with
  | Some th =>
      match thread_step t c.1 th with
      | Some (w', th') => (w', <[t := th']> c.2)
      | None => c
      end
  | None => c
  end.

Definition run (sched : list nat) (c : Config) : Config := foldl sched_step c sched.

(** A call [Do(ctx, keys, load)] that has not started. *)
Definition call (a : Ctx * list K * Loader) : thread :=
  MkThread a.1.1 a.1.2 a.2 [] [] PStart.

(** A fresh group and the calls that will be made on it. *)
Definition init (cs : list (Ctx * list K * Loader)) : Config :=
  (emptyWorld, call <$> cs).

(** The call is between its two critical sections: its misses are
    registered and their load has not been handed out. *)
Definition inflight (th : thread) : bool :=
  match t_pc th with
  | PRegistered | PLoaded _ => true
  | _ => false
  end.

Definition returned (th : thread) : bool :=
  match t_pc th with
  | PReturned _ => true
  | _ => false
  end.

(** The key of the entry behind a pointer. *)
Definition keyOf (h : list ent) (l : loc) : option K := key <$> h !! l.

(** What the second critical section writes into the entry for [k], given
    the loader's outcome [r]. *)
Definition outcome (r : option (gomap K V) * option error) (k : K) : ent :=
  match r.2 with
  | Some er => Ent 0 k zero (Some er)
  | None =>
      match r.1 ≫= (.!! k) with
      | Some v => Ent 0 k v None
      | None => Ent 0 k zero (Some errResultNotFound)
      end
  end.

(** A completed entry that the result loop passes over without returning:
    it carries a value, or an error that [errors.Is] takes for the
    not-found marker. *)
Definition passes (en : ent) : Prop :=
  wg en = 0 ∧
  match err en with
  | Some er => errors_Is er errResultNotFound = true
  | None => True
  end.

(** A completed entry carrying the failure [er], which is not the marker. *)
Definition fails_with (en : ent) (er : error) : Prop :=
  wg en = 0 ∧ err en = Some er ∧ errors_Is er errResultNotFound = false.

(** The call is past its second critical section (or has nothing to
    load): it only reads entries from now on. *)
Definition settled (th : thread) : bool :=
  match t_pc th with
  | PCollect _ _ | PReturned _ => true
  | _ => false
  end.

(** A bound on the steps a call still takes before it is settled. *)
Definition to_settle (th : thread) : nat :=
  match t_pc th with
  | PStart => 3
  | PRegistered => 2
  | PLoaded _ => 1
  | _ => 0
  end.

(** A bound on the steps a settled call still takes before it returns. *)
Definition to_return (th : thread) : nat :=
  match t_pc th with
  | PCollect rest _ => S (length rest)
  | _ => 0
  end.

(** The schedule that lets every call in turn take the steps [f] grants
    it. *)
Definition round (f : nat → nat) (n : nat) : list nat :=
  flat_map (λ t, replicate (f t) t) (seq 0 n).

Definition all_settled (c : Config) : Prop :=
  ∀ t th, c.2 !! t = Some th → settled th = true.

(** ** Invariants of the protocol *)

(** How the heap may change while a call is running: pointers stay valid,
    an entry keeps its key, and a completed entry is never written again. *)
Definition heap_le (h h' : list ent) : Prop :=
  ∀ l en, h !! l = Some en →
    ∃ en', h' !! l = Some en' ∧ key en' = key en ∧ (wg en = 0 → en' = en).

(** The locals of a call past its first critical section: [ents] resolves
    the keys in input order, keys that are [==] resolve to one entry, and
    the misses are distinct entries among them. *)
Definition locals_ok (h : list ent) (th : thread) : Prop :=
  Forall2 (λ l k, keyOf h l = Some k) (t_ents th) (t_keys th) ∧
  (∀ l, l ∈ t_miss th → l ∈ t_ents th) ∧
  (∀ l1 l2 k, l1 ∈ t_ents th → l2 ∈ t_ents th →
     keyOf h l1 = Some k → keyOf h l2 = Some k → reflexive k = true →
     l1 = l2) ∧
  NoDup (t_miss th).

(** The misses of a call in flight are pending, and the registry resolves
    their keys to them, as far as an index expression can find a key at
    all. *)
Definition pending_batch (w : World) (th : thread) : Prop :=
  ∀ l, l ∈ t_miss th →
    ∃ k, heap w !! l = Some (new_ent k) ∧
         (reflexive k = true → registry w !! k = Some l).

(** What the call's loader returns for its misses. *)
Definition loaded (h : list ent) (th : thread) : option (gomap K V) * option error :=
  t_load th (t_ctx th) (entKeys h (t_miss th)).

(** The misses of a call past its second critical section carry the
    loader's outcome. *)
Definition completed_batch (w : World) (th : thread) : Prop :=
  ∀ l, l ∈ t_miss th →
    ∃ k, heap w !! l = Some (outcome (loaded (heap w) th) k).

Definition thread_inv (w : World) (th : thread) : Prop :=
  match t_pc th with
  | PStart => t_ents th = [] ∧ t_miss th = []
  | PRegistered => locals_ok (heap w) th ∧ pending_batch w th
  | PLoaded r =>
      locals_ok (heap w) th ∧ pending_batch w th ∧
      r = loaded (heap w) th ∧ t_miss th ≠ []
  | PCollect rest result =>
      locals_ok (heap w) th ∧ completed_batch w th ∧
      ∃ pre, t_ents th = pre ++ rest ∧
             collect (heap w) pre ∅ = Some (Some result, None)
  | PReturned r =>
      locals_ok (heap w) th ∧ completed_batch w th ∧
      collect (heap w) (t_ents th) ∅ = Some r
  end.

(** The loader invocations made by call number [t]. *)
Definition calls_of (t : nat) (w : World) : list (list K) :=
  snd <$> filter (λ c, c.1 = t) (calls w).

(** The loader invocations a call must have made, by control point. *)
Definition expected_calls (h : list ent) (th : thread) : list (list K) :=
  match t_pc th with
  | PStart | PRegistered => []
  | _ => if bool_decide (0 < length (t_miss th))%nat
         then [entKeys h (t_miss th)] else []
  end.

(** [th] is in flight and [l] is one of the entries it registered. *)
Definition owns (th : thread) (l : loc) : Prop :=
  inflight th = true ∧ l ∈ t_miss th.

Definition config_inv (c : Config) : Prop :=
  (∀ t th, c.2 !! t = Some th →
     thread_inv c.1 th ∧ calls_of t c.1 = expected_calls (heap c.1) th) ∧
  (∀ k l, registry c.1 !! k = Some l →
     heap c.1 !! l = Some (new_ent k) ∧ ∃ t th, c.2 !! t = Some th ∧ owns th l) ∧
  (∀ t1 t2 th1 th2 l, c.2 !! t1 = Some th1 → c.2 !! t2 = Some th2 →
     l ∈ t_miss th1 → l ∈ t_miss th2 → t1 = t2) ∧
  (∀ l en, heap c.1 !! l = Some en →
     wg en = 0 ∨ ∃ t th, c.2 !! t = Some th ∧ owns th l) ∧
  (∀ t ks, (t, ks) ∈ calls c.1 → is_Some (c.2 !! t)) ∧
  (∀ l, (l < length (heap c.1))%nat → ∃ t th, c.2 !! t = Some th ∧ l ∈ t_miss th).

(** No two keys of the list are [==]. *)
Definition distinct_keys (ks : list K) : Prop :=
  ∀ i j k, ks !! i = Some k → ks !! j = Some k → reflexive k = true → i = j.

(** The two parts of the registry: the keys of the live bindings are equal
    to themselves, and a dead binding was made for an entry under its key,
    which is not equal to itself. *)
Definition registry_wf (w : World) : Prop :=
  (∀ k l, live (registry w) !! k = Some l → reflexive k = true) ∧
  (∀ k l, (k, l) ∈ dead (registry w) →
     reflexive k = false ∧ keyOf (heap w) l = Some k).

End Multiflight.

(** ** Scenarios on a [Group[int, string]]

    Keys are Go [int]s, values [string]s with zero value the empty string,
    and the context is [context.Background()]. *)
Module Scenario.
(** Every [int] is equal to itself. *)
#[global] Instance Z_comparable : Comparable Z := λ _, true.

Definition loader : Type := @Loader Z _ _ string unit.
Definition config : Type := @Config Z _ _ string unit.

(** The thread of call [t], or call [d] when there is no such call. *)
Definition thread_at (c : config) (t : nat) (d : unit * list Z * loader)
    : @thread Z _ _ string unit :=
  default (call d) (c.2 !! t).

(** A loader that returns the mapping 1 to a, 3 to c, and a nil error. *)
Definition load_a_c : loader :=
  λ _ _, (Some (<[1 := "a"%string]> (<[3 := "c"%string]> ∅)), None).

(** [errors.New("backend unavailable")] *)
Definition backend_unavailable : error := errorString 1 "backend unavailable".

(** A loader that returns a nil map and that error. *)
Definition load_unavailable : loader := λ _ _, (None, Some backend_unavailable).

(** An error of a type of the caller's own whose [Is] method accepts every
    target. *)
Definition lookalike : error := customError 2 "backend unavailable" (λ _, true).

Definition load_lookalike : loader := λ _ _, (None, Some lookalike).

(** The loader of the repository's test: it answers every key it is
    passed. *)
Definition load_echo : loader :=
  λ _ keys, (Some (list_to_map ((λ k, (k, "val"%string)) <$> keys)), None).

(** One call with keys 1, 2, 3 and [load_a_c], run to its end. *)
Definition one_call_cs : list (unit * list Z * loader) := [(tt, [1; 2; 3], load_a_c)].
Definition one_call_sched : list nat := replicate 7 0%nat.

(** One call with keys 1, 2 whose loader fails. *)
Definition failing_cs : list (unit * list Z * loader) := [(tt, [1; 2], load_unavailable)].
Definition failing_sched : list nat := replicate 6 0%nat.

(** Call 0 asks for key 5 and call 1 for 5, 5, 5: call 0 registers, call 1
    registers while 5 is in flight, call 0 loads and hands out, and both
    collect. *)
Definition overlap_cs : list (unit * list Z * loader) :=
  [(tt, [5], load_echo); (tt, [5; 5; 5], load_echo)].
Definition overlap_sched : list nat :=
  [0; 1; 1; 0; 0; 0; 0; 1; 1; 1; 1]%nat.

(** The same two calls with call 0 stopped after its loader returned. *)
Definition overlap_loaded_sched : list nat := [0; 1; 0]%nat.


(** One call with keys 5, 5, 5, run to its end. *)
Definition dup_cs : list (unit * list Z * loader) := [(tt, [5; 5; 5], load_echo)].
Definition dup_sched : list nat := replicate 7 0%nat.

(** An empty call next to a loading one. *)
Definition empty_cs : list (unit * list Z * loader) :=
  [(tt, [], load_echo); (tt, [7], load_echo)].
Definition empty_sched : list nat := [1; 0; 0; 1; 0; 1; 1; 1]%nat.

(** *** A [Group[float64, string]]

    A [float64] key is a number or a NaN; a NaN is not equal to itself.  The
    scenarios need whole numbers only. *)
Inductive float64 : Type := Num (z : Z) | NaN.

#[global] Instance float64_eq_dec : EqDecision float64.
Proof. solve_decision. Defined.

#[global] Instance float64_countable : Countable float64 :=
  inj_countable'
    (λ f, match f with Num z => Some z | NaN => None end)
    (λ o, match o with Some z => Num z | None => NaN end)
    (λ f, match f with Num _ | NaN => eq_refl end).

#[global] Instance float64_comparable : Comparable float64 :=
  λ f, match f with Num _ => true | NaN => false end.

Definition floader : Type := @Loader float64 _ _ string unit.
Definition fconfig : Type := @Config float64 _ _ string unit.

Definition fthread_at (c : fconfig) (t : nat) (d : unit * list float64 * floader)
    : @thread float64 _ _ string unit :=
  default (call d) (c.2 !! t).

(** A loader that binds every key it is passed. *)
Definition fload_echo : floader :=
  λ _ keys, (Some (list_to_map ((λ k, (k, "val"%string)) <$> keys)), None).

(** One call with the key NaN: registered, and run to its end. *)
Definition nan_cs : list (unit * list float64 * floader) := [(tt, [NaN], fload_echo)].
Definition nan_registered_sched : list nat := [0%nat].
Definition nan_sched : list nat := replicate 5 0%nat.

(** One call with keys NaN, NaN, NaN, run to its end. *)
Definition nan_dup_cs : list (unit * list float64 * floader) :=
  [(tt, [NaN; NaN; NaN], fload_echo)].
Definition nan_dup_sched : list nat := replicate 7 0%nat.

(** Two calls with the key NaN: both register, both load, both collect. *)
Definition nan_overlap_cs : list (unit * list float64 * floader) :=
  [(tt, [NaN], fload_echo); (tt, [NaN], fload_echo)].
Definition nan_inflight_sched : list nat := [0; 1]%nat.
Definition nan_overlap_sched : list nat := [0; 1; 0; 1; 0; 1; 0; 0; 1; 1]%nat.
End Scenario.

(** * The protocol and its invariant *)

Section Protocol.
Context {K : Type} `{Countable K} `{!Comparable K} {V : Type} (zero : V) {Ctx : Type}.

Abbreviation ent := (@ent K V).
Abbreviation World := (@World K _ _ V).
Abbreviation Loader := (@Loader K _ _ V Ctx).
Abbreviation thread := (@thread K _ _ V Ctx).
Abbreviation Config := (@Config K _ _ V Ctx).

Implicit Types (m : gomap K loc) (h : list ent) (w : World) (l e : loc) (k : K)
  (th : thread) (cf : Config) (result res : gomap K V) (en : ent).

(** *** Index expressions, assignments and [delete] on Go maps *)

Section GoMapFacts.
Context {X : Type}.
Implicit Types (gm : gomap K X) (i j : K) (x : X).

Lemma gomap_lookup_unfold gm i :
  gm !! i = if reflexive i then live gm !! i else None.
Proof. done. Qed.

Lemma gomap_insert_unfold gm i x :
  <[i := x]> gm =
    if reflexive i then GoMap (<[i := x]> (live gm)) (dead gm)
    else GoMap (live gm) (dead gm ++ [(i, x)]).
Proof. done. Qed.

Lemma gomap_delete_unfold gm i :
  delete i gm = if reflexive i then GoMap (delete i (live gm)) (dead gm) else gm.
Proof. done. Qed.

Lemma gomap_lookup_empty i : (∅ : gomap K X) !! i = None.
Proof. rewrite gomap_lookup_unfold. by destruct (reflexive i). Qed.

Lemma gomap_lookup_reflexive gm i x : gm !! i = Some x → reflexive i = true.
Proof. rewrite gomap_lookup_unfold. by destruct (reflexive i). Qed.

Lemma gomap_lookup_irreflexive gm i : reflexive i = false → gm !! i = None.
Proof. intros Hi. by rewrite gomap_lookup_unfold, Hi. Qed.

Lemma gomap_lookup_live gm i : reflexive i = true → gm !! i = live gm !! i.
Proof. intros Hi. by rewrite gomap_lookup_unfold, Hi. Qed.

Lemma gomap_lookup_insert gm i j x :
  <[i := x]> gm !! j =
    if decide (i = j) then (if reflexive i then Some x else None) else gm !! j.
Proof.
  rewrite !gomap_lookup_unfold, gomap_insert_unfold.
  destruct (decide (i = j)) as [<-|Hne].
  - destruct (reflexive i); simpl; [by rewrite lookup_insert_eq|done].
  - destruct (reflexive i), (reflexive j); simpl; try done.
    by rewrite lookup_insert_ne.
Qed.

Lemma gomap_lookup_insert_eq gm i x :
  reflexive i = true → <[i := x]> gm !! i = Some x.
Proof. intros Hi. by rewrite gomap_lookup_insert, decide_True, Hi. Qed.

Lemma gomap_lookup_insert_ne gm i j x : i ≠ j → <[i := x]> gm !! j = gm !! j.
Proof. intros Hne. by rewrite gomap_lookup_insert, decide_False. Qed.

Lemma gomap_lookup_insert_irreflexive gm i j x :
  reflexive i = false → <[i := x]> gm !! j = gm !! j.
Proof.
  intros Hi. rewrite gomap_lookup_insert. case_decide as Hd; [|done].
  subst j. by rewrite Hi, gomap_lookup_irreflexive.
Qed.

Lemma gomap_lookup_delete gm i j :
  delete i gm !! j = if decide (i = j) then None else gm !! j.
Proof.
  rewrite !gomap_lookup_unfold, gomap_delete_unfold.
  destruct (decide (i = j)) as [<-|Hne].
  - destruct (reflexive i); simpl; [by rewrite lookup_delete_eq|done].
  - destruct (reflexive i), (reflexive j); simpl; try done.
    by rewrite lookup_delete_ne.
Qed.

Lemma gomap_lookup_delete_eq gm i : delete i gm !! i = None.
Proof. by rewrite gomap_lookup_delete, decide_True. Qed.

Lemma gomap_lookup_delete_ne gm i j : i ≠ j → delete i gm !! j = gm !! j.
Proof. intros Hne. by rewrite gomap_lookup_delete, decide_False. Qed.

Lemma gomap_delete_empty i : delete i (∅ : gomap K X) = ∅.
Proof.
  rewrite gomap_delete_unfold. destruct (reflexive i); [|done].
  unfold empty at 2, gomap_empty. simpl. by rewrite delete_empty.
Qed.

End GoMapFacts.

Lemma keyOf_Some h l k :
  keyOf h l = Some k ↔ ∃ en, h !! l = Some en ∧ key en = k.
Proof.
  unfold keyOf. destruct (h !! l) as [en|]; simpl; split.
  - intros [= <-]. eauto.
  - intros (en' & [= <-] & <-). done.
  - done.
  - intros (? & ? & ?). done.
Qed.

Lemma keyOf_lt h l k : keyOf h l = Some k → (l < length h)%nat.
Proof. intros (en & Hl & _)%keyOf_Some. by eapply lookup_lt_Some. Qed.

Lemma keyOf_app h h' l k : keyOf h l = Some k → keyOf (h ++ h') l = Some k.
Proof.
  intros Hk. pose proof (keyOf_lt _ _ _ Hk). unfold keyOf in *.
  by rewrite lookup_app_l.
Qed.

(** What the loop of the first critical section computes, when the
    registry it starts from points at entries carrying their own key. *)
Lemma register_spec keys : ∀ m h ents miss m' h' ents' miss',
  register zero keys m h ents miss = (m', h', ents', miss') →
  (∀ k l, m !! k = Some l → keyOf h l = Some k) →
  ∃ es ms news,
    ents' = ents ++ es ∧ miss' = miss ++ ms ∧ h' = h ++ news ∧
    Forall2 (λ l k, keyOf h' l = Some k ∧
                    (reflexive k = true → m' !! k = Some l)) es keys ∧
    (∀ k l, m !! k = Some l → m' !! k = Some l) ∧
    (∀ k l, m' !! k = Some l → m !! k = Some l ∨ l ∈ ms) ∧
    (∀ k l, m' !! k = Some l → keyOf h' l = Some k) ∧
    (∀ l, l ∈ ms → (length h ≤ l)%nat ∧
       ∃ k, h' !! l = Some (new_ent zero k) ∧
            (reflexive k = true → m' !! k = Some l) ∧
            m !! k = None ∧ k ∈ keys) ∧
    (∀ l, l ∈ ms → l ∈ es) ∧ NoDup ms ∧
    (∀ i, (length h ≤ i < length h')%nat → i ∈ ms) ∧
    (∀ k, k ∈ keys → m !! k = None →
       ∃ l, l ∈ ms ∧ keyOf h' l = Some k ∧
            (reflexive k = true → m' !! k = Some l)).
Proof.
  induction keys as [|k keys IH]; intros m h ents miss m' h' ents' miss' Hr Hm.
  - simpl in Hr. simplify_eq. exists [], [], [].
    rewrite !app_nil_r. split_and!; auto.
    + intros l Hl. by apply elem_of_nil in Hl.
    + constructor.
    + intros i Hi. lia.
    + intros k Hk. by apply elem_of_nil in Hk.
  - simpl in Hr. destruct (m !! k) as [e|] eqn:Hk.
    + apply IH in Hr as (es & ms & news & -> & -> & -> & HF & Hpres & Horig
          & Hkey & Hms & Hsub & Hnd & Hnew & Hall); [|done].
      exists (e :: es), ms, news. rewrite <- app_assoc. simpl.
      split_and!; auto.
      * intros l Hl. destruct (Hms l Hl) as (? & k' & ? & ? & ? & ?).
        split; [done|]. exists k'. split_and!; auto. by right.
      * intros l Hl. right. auto.
      * intros k' [->|Hk']%elem_of_cons Hn; [congruence|]. auto.
    + apply IH in Hr as (es & ms & news & -> & -> & -> & HF & Hpres & Horig
          & Hkey & Hms & Hsub & Hnd & Hnew & Hall).
      2:{ intros k' l. rewrite gomap_lookup_insert. case_decide as Hd.
          - destruct (reflexive k); [|done]. intros [= <-]. subst k'.
            unfold keyOf. by rewrite lookup_app_r, Nat.sub_diag by lia.
          - intros Hl. apply keyOf_app. auto. }
      assert (Hke : reflexive k = true → m' !! k = Some (length h)).
      { intros Hrk. apply Hpres. by rewrite gomap_lookup_insert_eq. }
      assert (Hhk : keyOf ((h ++ [new_ent zero k]) ++ news) (length h) = Some k).
      { apply keyOf_app. unfold keyOf.
        by rewrite lookup_app_r, Nat.sub_diag by lia. }
      assert (Hfresh : length h ∉ ms).
      { intros Hin. apply Hms in Hin as [Hin _]. rewrite length_app in Hin.
        simpl in Hin. lia. }
      exists (length h :: es), (length h :: ms), (new_ent zero k :: news).
      rewrite <- !app_assoc. simpl. rewrite <- !app_assoc in Hhk. simpl in Hhk.
      split_and!; auto.
      * constructor; [done|]. by rewrite <- app_assoc in HF.
      * intros k' l Hl. apply Hpres. rewrite gomap_lookup_insert_ne; [done|].
        intros ->. congruence.
      * intros k' l Hl. apply Horig in Hl as [Hl|Hl].
        -- rewrite gomap_lookup_insert in Hl. case_decide.
           ++ destruct (reflexive k); [|done]. simplify_eq. right. left.
           ++ by left.
        -- right. by right.
      * intros k' l Hl. apply Hkey in Hl. by rewrite <- app_assoc in Hl.
      * intros l [->|Hl]%elem_of_cons.
        { split; [done|]. exists k. split_and!; auto.
          - rewrite lookup_app_r by lia. by rewrite Nat.sub_diag.
          - left. }
        apply Hms in Hl as (Hlen & k' & Hh & Hm' & Hn & Hin).
        split. { rewrite length_app in Hlen. lia. }
        exists k'. rewrite <- app_assoc in Hh. simpl in Hh.
        split_and!; auto.
        -- rewrite gomap_lookup_insert in Hn. case_decide; [by subst|done].
        -- by right.
      * intros l [->|Hl]%elem_of_cons; [left|right; auto].
      * by constructor.
      * intros i [Hi1 Hi2]. destruct (decide (i = length h)) as [->|Hne];
          [left|]. right. apply Hnew. rewrite !length_app in *. simpl in *. lia.
      * assert (Hhead : ∃ l, l ∈ length h :: ms ∧
                  keyOf (h ++ new_ent zero k :: news) l = Some k ∧
                  (reflexive k = true → m' !! k = Some l)).
        { exists (length h). split; [left|done]. }
        intros k' [->|Hk']%elem_of_cons Hn; [done|].
        destruct (decide (k' = k)) as [->|Hne]; [done|].
        destruct (Hall k' Hk') as (l & Hl & Hkl & Hml).
        { by rewrite gomap_lookup_insert_ne. }
        exists l. split; [by right|]. rewrite <- app_assoc in Hkl. done.
Qed.

Lemma fanOut_foldl w ents r : fanOut w ents r = foldl (fan1 r) w ents.
Proof. unfold fanOut, fan1. destruct r as [vals [er|]]; done. Qed.

Lemma fan1_pending r w e k :
  heap w !! e = Some (new_ent zero k) →
  fan1 r w e =
    MkWorld (delete k <$> g_m w) (<[e := outcome zero r k]> (heap w)) (calls w).
Proof.
  intros He. unfold fan1, outcome, setFromVals, setCallErr, setCallResult.
  destruct r as [vals [er|]]; simpl; rewrite He; simpl; [done|].
  destruct (vals ≫= _); rewrite ?He; done.
Qed.

Lemma registry_delete w k h cs :
  registry (MkWorld (delete k <$> g_m w) h cs) = delete k (registry w).
Proof.
  unfold registry. simpl. destruct (g_m w); simpl; [done|].
  by rewrite gomap_delete_empty.
Qed.

Lemma entKeys_cons h e ents :
  entKeys h (e :: ents) =
    match keyOf h e with Some k => k :: entKeys h ents | None => entKeys h ents end.
Proof. done. Qed.

Lemma entKeys_ext h h' ents :
  (∀ l, l ∈ ents → h' !! l = h !! l) → entKeys h' ents = entKeys h ents.
Proof.
  induction ents as [|e ents IH]; intros Hl; [done|].
  rewrite !entKeys_cons. unfold keyOf. rewrite Hl by left.
  rewrite IH; [done|]. intros l ?. apply Hl. by right.
Qed.

Lemma elem_of_entKeys h ents k :
  k ∈ entKeys h ents ↔ ∃ l, l ∈ ents ∧ keyOf h l = Some k.
Proof. unfold entKeys. by rewrite list_elem_of_omap. Qed.

(** The second critical section, on a batch of pending entries. *)
Lemma fanOut_spec r ents : ∀ w,
  NoDup ents →
  (∀ l, l ∈ ents → ∃ k, heap w !! l = Some (new_ent zero k)) →
  calls (fanOut w ents r) = calls w ∧
  length (heap (fanOut w ents r)) = length (heap w) ∧
  (∀ l, l ∉ ents → heap (fanOut w ents r) !! l = heap w !! l) ∧
  (∀ l k, l ∈ ents → heap w !! l = Some (new_ent zero k) →
     heap (fanOut w ents r) !! l = Some (outcome zero r k)) ∧
  (∀ k, registry (fanOut w ents r) !! k =
     if decide (k ∈ entKeys (heap w) ents) then None else registry w !! k).
Proof.
  induction ents as [|e ents IH]; intros w Hnd Hp.
  - rewrite fanOut_foldl. simpl. split_and!; auto.
    all: intros; try case_decide; try done.
    all: exfalso; eapply elem_of_nil; eauto.
  - apply NoDup_cons in Hnd as [Hne Hnd].
    destruct (Hp e) as [ke He]; [left|].
    rewrite fanOut_foldl. cbn [foldl]. rewrite (fan1_pending _ _ _ _ He).
    rewrite <- fanOut_foldl.
    set (w1 := MkWorld _ _ _).
    assert (Hsame : ∀ l, l ≠ e → heap w1 !! l = heap w !! l).
    { intros l Hl. simpl. by rewrite list_lookup_insert_ne. }
    destruct (IH w1) as (Hc & Hlen & Hout & Hin & Hreg); [done| |].
    { intros l Hl. destruct (Hp l) as [k Hk]; [by right|]. exists k.
      rewrite Hsame; [done|]. intros ->. done. }
    split_and!.
    + by rewrite Hc.
    + rewrite Hlen. simpl. by rewrite length_insert.
    + intros l Hl. apply not_elem_of_cons in Hl as [Hl1 Hl2].
      rewrite Hout by done. by apply Hsame.
    + intros l k [->|Hl]%elem_of_cons Hk.
      * rewrite Hout by done. simpl. rewrite He in Hk. simplify_eq.
        apply list_lookup_insert_eq. by eapply lookup_lt_Some.
      * apply Hin; [done|]. rewrite Hsame; [done|]. intros ->. done.
    + intros k. rewrite Hreg. rewrite (entKeys_ext (heap w)).
      2:{ intros l Hl. apply Hsame. intros ->. done. }
      unfold w1. rewrite registry_delete.
      rewrite entKeys_cons. unfold keyOf. rewrite He. cbn [fmap option_fmap option_map key new_ent].
      destruct (decide (k ∈ entKeys (heap w) ents)) as [Hk|Hk].
      * rewrite decide_True; [done|]. by right.
      * destruct (decide (k = ke)) as [->|Hkne].
        -- rewrite decide_True by left. apply gomap_lookup_delete_eq.
        -- rewrite decide_False.
           ++ by rewrite gomap_lookup_delete_ne.
           ++ intros [?|?]%elem_of_cons; done.
Qed.

(** *** The heap only grows, and completed entries are final *)

Lemma heap_le_refl h : heap_le h h.
Proof. intros l en Hl. eauto. Qed.

Lemma heap_le_trans h1 h2 h3 : heap_le h1 h2 → heap_le h2 h3 → heap_le h1 h3.
Proof.
  intros H12 H23 l en Hl.
  destruct (H12 l en Hl) as (en2 & Hl2 & Hk2 & Hd2).
  destruct (H23 l en2 Hl2) as (en3 & Hl3 & Hk3 & Hd3).
  exists en3. split_and!; [done|congruence|].
  intros Hz. specialize (Hd2 Hz). subst en2. auto.
Qed.

Lemma heap_le_app h news : heap_le h (h ++ news).
Proof.
  intros l en Hl. exists en. split_and!; auto.
  rewrite lookup_app_l; [done|]. by eapply lookup_lt_Some.
Qed.

Lemma heap_le_keyOf h h' l k : heap_le h h' → keyOf h l = Some k → keyOf h' l = Some k.
Proof.
  intros Hle (en & Hl & <-)%keyOf_Some.
  destruct (Hle l en Hl) as (en' & Hl' & Hk & _).
  apply keyOf_Some. eauto.
Qed.

Lemma heap_le_keyOf_eq h h' l :
  heap_le h h' → is_Some (h !! l) → keyOf h' l = keyOf h l.
Proof.
  intros Hle [en Hl]. destruct (Hle l en Hl) as (en' & Hl' & Hk & _).
  unfold keyOf. rewrite Hl, Hl'. simpl. by f_equal.
Qed.

Lemma heap_le_entKeys h h' ents :
  heap_le h h' → (∀ l, l ∈ ents → is_Some (h !! l)) →
  entKeys h' ents = entKeys h ents.
Proof.
  intros Hle. induction ents as [|e ents IH]; intros Hv; [done|].
  rewrite !entKeys_cons, (heap_le_keyOf_eq h h') by (done || apply Hv; left).
  rewrite IH; [done|]. intros l Hl. apply Hv. by right.
Qed.

Lemma collect_heap_le h h' ents : ∀ result r,
  heap_le h h' → collect h ents result = Some r → collect h' ents result = Some r.
Proof.
  induction ents as [|e ents IH]; intros result r Hle Hc; [done|].
  simpl in *. destruct (h !! e) as [en|] eqn:He; [|done].
  destruct (completed en) eqn:Hd; [|done].
  destruct (Hle e en He) as (en' & -> & _ & Hfin).
  apply bool_decide_eq_true in Hd as Hz. rewrite (Hfin Hz), Hd.
  destruct (collect1 en result); eauto.
Qed.

Lemma collect_app h pre : ∀ rest result result',
  collect h pre result = Some (Some result', None) →
  collect h (pre ++ rest) result = collect h rest result'.
Proof.
  induction pre as [|e pre IH]; intros rest result result' Hc.
  - simpl in Hc. by simplify_eq.
  - simpl in *. destruct (h !! e) as [en|]; [|done].
    destruct (completed en); [|done].
    destruct (collect1 en result) as [res1|r1] eqn:H1; [eauto|].
    unfold collect1 in H1. destruct (err en); [|done].
    destruct (errors_Is _ _); simplify_eq.
Qed.

Lemma collect_snoc h pre e en result result' :
  collect h pre ∅ = Some (Some result, None) →
  h !! e = Some en → completed en = true →
  collect1 en result = Continue result' →
  collect h (pre ++ [e]) ∅ = Some (Some result', None).
Proof.
  intros Hc He Hd H1. rewrite (collect_app _ _ _ _ _ Hc). simpl.
  by rewrite He, Hd, H1.
Qed.

Lemma collect_snoc_return h pre e en rest result r :
  collect h pre ∅ = Some (Some result, None) →
  h !! e = Some en → completed en = true →
  collect1 en result = Return r →
  collect h (pre ++ e :: rest) ∅ = Some r.
Proof.
  intros Hc He Hd H1. rewrite (collect_app _ _ _ _ _ Hc). simpl.
  by rewrite He, Hd, H1.
Qed.

(** *** The result loop *)

Lemma collect1_passes en result :
  passes en →
  ∃ result', collect1 en result = Continue result' ∧
    (∀ k, result' !! k =
       if decide (k = key en ∧ err en = None ∧ reflexive k = true)
       then Some (val en) else result !! k).
Proof.
  intros [_ Hp]. unfold collect1. destruct (err en) as [er|].
  - rewrite Hp. exists result. split; [done|]. intros k.
    rewrite decide_False; [done|]. by intros (_ & ? & _).
  - eexists. split; [done|]. intros k. rewrite gomap_lookup_insert.
    destruct (decide (key en = k)) as [<-|Hne].
    + destruct (reflexive (key en)) eqn:Hr.
      * by rewrite decide_True.
      * rewrite decide_False by (by intros (_ & _ & ?)).
        by rewrite gomap_lookup_irreflexive.
    + rewrite decide_False; [done|]. intros [-> _]. done.
Qed.

Lemma collect1_cases en result :
  wg en = 0 →
  (passes en ∧ ∃ result', collect1 en result = Continue result') ∨
  (∃ er, fails_with en er ∧ collect1 en result = Return (None, Some er)).
Proof.
  intros Hz. unfold collect1, passes, fails_with.
  destruct (err en) as [er|]; [|left; eauto].
  destruct (errors_Is er errResultNotFound) eqn:Hi; [left; eauto|right; eauto].
Qed.

(** What a finished loop says about the entries: they all pass and a map is
    returned, or the first one that fails decides the error. *)
Lemma collect_Some_inv h ents : ∀ result r,
  collect h ents result = Some r →
  (∃ res, r = (Some res, None) ∧
     Forall (λ l, ∃ en, h !! l = Some en ∧ passes en) ents) ∨
  (∃ pre l post en er, ents = pre ++ l :: post ∧ r = (None, Some er) ∧
     h !! l = Some en ∧ fails_with en er ∧
     Forall (λ l, ∃ en, h !! l = Some en ∧ passes en) pre).
Proof.
  induction ents as [|e ents IH]; intros result r Hc; simpl in Hc.
  - left. simplify_eq. eauto.
  - destruct (h !! e) as [en|] eqn:He; [|done].
    destruct (completed en) eqn:Hd; [|done].
    apply bool_decide_eq_true in Hd.
    destruct (collect1_cases en result Hd) as [[Hp [res' H1]]|(er & Hf & H1)];
      rewrite H1 in Hc.
    + destruct (IH _ _ Hc) as [(res & -> & Hall)|
        (pre & l & post & en' & er & -> & -> & Hl & Hf & Hall)].
      * left. exists res. split; [done|]. constructor; eauto.
      * right. exists (e :: pre), l, post, en', er. split_and!; auto.
        constructor; eauto.
    + right. simplify_eq. exists [], e, ents, en, er. split_and!; auto.
Qed.


(** Every entry of the returned map was written for an entry that carries
    a value. *)
Lemma collect_lookup_inv h ents : ∀ result res k v,
  collect h ents result = Some (Some res, None) →
  res !! k = Some v →
  result !! k = Some v ∨
  ∃ l en, l ∈ ents ∧ h !! l = Some en ∧ key en = k ∧ val en = v ∧ err en = None.
Proof.
  induction ents as [|e ents IH]; intros result res k v Hc Hk; simpl in Hc.
  - simplify_eq. by left.
  - destruct (h !! e) as [en|] eqn:He; [|done].
    destruct (completed en) eqn:Hd; [|done].
    apply bool_decide_eq_true in Hd.
    destruct (collect1_cases en result Hd) as [[Hp [res' H1]]|(er & Hf & H1)];
      rewrite H1 in Hc; [|done].
    destruct (collect1_passes en result Hp) as (res'' & H1' & Hres).
    rewrite H1 in H1'. simplify_eq.
    destruct (IH _ _ _ _ Hc Hk) as [Hin|(l & en' & Hl & ? & ? & ? & ?)].
    + rewrite Hres in Hin. case_decide as Hd'.
      * right. destruct Hd' as (-> & Herr & _). simplify_eq.
        exists e, en. split_and!; auto. left.
      * by left.
    + right. exists l, en'. split_and!; auto. by right.
Qed.

(** The value of an entry reaches the returned map when all the entries
    resolved for its key are that entry. *)
Lemma collect_lookup_gen h ents l en : ∀ result res,
  collect h ents result = Some (Some res, None) →
  h !! l = Some en → err en = None → reflexive (key en) = true →
  (∀ l', l' ∈ ents → keyOf h l' = Some (key en) → l' = l) →
  l ∈ ents ∨ result !! key en = Some (val en) →
  res !! key en = Some (val en).
Proof.
  induction ents as [|e ents IH]; intros result res Hc Hh Herr Hrk Hinj Hor.
  - simpl in Hc. simplify_eq. destruct Hor as [Hl|?]; [|done].
    by apply elem_of_nil in Hl.
  - simpl in Hc. destruct (h !! e) as [en'|] eqn:He; [|done].
    destruct (completed en') eqn:Hd; [|done].
    apply bool_decide_eq_true in Hd.
    destruct (collect1_cases en' result Hd) as [[Hp [res' H1]]|(er & Hf & H1)];
      rewrite H1 in Hc; [|done].
    destruct (collect1_passes en' result Hp) as (res'' & H1' & Hres).
    rewrite H1 in H1'. simplify_eq.
    eapply IH; eauto.
    { intros l' Hl'. apply Hinj. by right. }
    destruct (decide (key en' = key en)) as [Hk|Hk].
    + right. assert (e = l) as ->.
      { apply Hinj; [left|]. unfold keyOf. rewrite He. simpl. by f_equal. }
      simplify_eq. rewrite Hres. by rewrite decide_True.
    + destruct Hor as [[->|Hl]%elem_of_cons|Hr]; [by simplify_eq|by left|].
      right. rewrite Hres. rewrite decide_False; [done|].
      intros [? _]. congruence.
Qed.

Lemma collect_lookup h ents l en res :
  collect h ents ∅ = Some (Some res, None) →
  l ∈ ents → h !! l = Some en → err en = None → reflexive (key en) = true →
  (∀ l', l' ∈ ents → keyOf h l' = Some (key en) → l' = l) →
  res !! key en = Some (val en).
Proof. intros. eapply collect_lookup_gen; eauto. Qed.

(** *** A call's invariant is not disturbed by the others *)

Lemma locals_ok_valid h th l : locals_ok h th → l ∈ t_ents th → is_Some (h !! l).
Proof.
  intros (HF & _) Hl. apply list_elem_of_lookup in Hl as [i Hi].
  destruct (Forall2_lookup_l _ _ _ _ _ HF Hi) as (k & _ & Hk).
  apply keyOf_Some in Hk as (en & ? & _). eauto.
Qed.

Lemma locals_ok_miss_valid h th l : locals_ok h th → l ∈ t_miss th → is_Some (h !! l).
Proof. intros Hok Hl. eapply locals_ok_valid; [done|]. by apply Hok. Qed.

Lemma locals_ok_heap_le h h' th : heap_le h h' → locals_ok h th → locals_ok h' th.
Proof.
  intros Hle Hok. pose proof Hok as (HF & Hsub & Hinj & Hnd).
  split_and!; auto.
  - eapply Forall2_impl; [exact HF|]. intros l k. by apply heap_le_keyOf.
  - intros l1 l2 k H1 H2.
    rewrite !(heap_le_keyOf_eq h h') by eauto using locals_ok_valid. eauto.
Qed.

Lemma loaded_heap_le h h' th :
  heap_le h h' → locals_ok h th → loaded h' th = loaded h th.
Proof.
  intros Hle Hok. unfold loaded. f_equal.
  apply heap_le_entKeys; [done|]. eauto using locals_ok_miss_valid.
Qed.

Lemma thread_inv_frame w w' th :
  thread_inv zero w th →
  heap_le (heap w) (heap w') →
  (∀ l, l ∈ t_miss th → heap w' !! l = heap w !! l) →
  (inflight th = true → ∀ k l, l ∈ t_miss th →
     registry w !! k = Some l → registry w' !! k = Some l) →
  thread_inv zero w' th.
Proof.
  intros Hinv Hle Hmiss Hreg. unfold thread_inv in *.
  assert (Hpb : inflight th = true → pending_batch zero w th → pending_batch zero w' th).
  { intros Hfl Hpb l Hl. destruct (Hpb l Hl) as (k & Hh & Hr). exists k.
    rewrite Hmiss by done. eauto. }
  assert (Hcb : locals_ok (heap w) th → completed_batch zero w th → completed_batch zero w' th).
  { intros Hok Hcb l Hl. destruct (Hcb l Hl) as (k & Hh). exists k.
    rewrite Hmiss by done. by rewrite (loaded_heap_le (heap w)). }
  unfold inflight in *.
  destruct (t_pc th) as [| |r|rest result|r]; [done|..].
  - destruct Hinv as (Hok & Hp). eauto using locals_ok_heap_le.
  - destruct Hinv as (Hok & Hp & Hr & Hne).
    split_and!; eauto using locals_ok_heap_le.
    by rewrite (loaded_heap_le (heap w)).
  - destruct Hinv as (Hok & Hc & pre & Hpre & Hcol).
    split_and!; eauto using locals_ok_heap_le, collect_heap_le.
  - destruct Hinv as (Hok & Hc & Hcol).
    split_and!; eauto using locals_ok_heap_le, collect_heap_le.
Qed.

Lemma expected_calls_frame h h' th :
  heap_le h h' → (t_pc th = PStart ∨ locals_ok h th) →
  expected_calls h' th = expected_calls h th.
Proof.
  intros Hle Hok. unfold expected_calls.
  destruct (t_pc th); try done; destruct Hok as [?|Hok]; try done;
    case_bool_decide; try done;
    by rewrite (heap_le_entKeys h h') by eauto using locals_ok_miss_valid.
Qed.

Lemma thread_inv_locals w th :
  thread_inv zero w th → t_pc th = PStart ∨ locals_ok (heap w) th.
Proof. unfold thread_inv. destruct (t_pc th); intuition. Qed.

Lemma thread_inv_miss_lt w th l :
  thread_inv zero w th → l ∈ t_miss th → (l < length (heap w))%nat.
Proof.
  intros Hinv Hl. apply lookup_lt_is_Some.
  destruct (thread_inv_locals _ _ Hinv) as [Hs|Hok];
    [|by eapply locals_ok_miss_valid].
  unfold thread_inv in Hinv. rewrite Hs in Hinv. destruct Hinv as [_ Hm].
  rewrite Hm in Hl. by apply elem_of_nil in Hl.
Qed.

Lemma thread_inv_ext w w' th :
  heap w' = heap w → registry w' = registry w →
  thread_inv zero w th → thread_inv zero w' th.
Proof.
  intros Hh Hr Hinv. eapply thread_inv_frame; [exact Hinv|..].
  - rewrite Hh. apply heap_le_refl.
  - intros. by rewrite Hh.
  - intros. by rewrite Hr.
Qed.

(** *** Steps that leave the registry and the heap alone *)

Lemma config_inv_update w w' ths t th th' :
  config_inv zero (w, ths) → ths !! t = Some th →
  g_m w' = g_m w → heap w' = heap w →
  t_miss th' = t_miss th →
  (inflight th = true → t_miss th ≠ [] → inflight th' = true) →
  thread_inv zero w' th' →
  calls_of t w' = expected_calls (heap w') th' →
  (∀ t', t' ≠ t → calls_of t' w' = calls_of t' w) →
  (∀ t0 ks, (t0, ks) ∈ calls w' → (t0, ks) ∈ calls w ∨ t0 = t) →
  config_inv zero (w', <[t := th']> ths).
Proof.
  intros (I1 & I2 & I3 & I4 & I5 & I6) Hth Hm Hh Hmiss Hfl Hinv Hcalls Hother Hlog.
  simpl in *.
  assert (Hreg : registry w' = registry w) by (unfold registry; by rewrite Hm).
  assert (Hlt : (t < length ths)%nat) by by eapply lookup_lt_Some.
  assert (Hown : ∀ l, (∃ t0 th0, ths !! t0 = Some th0 ∧ owns th0 l) →
            ∃ t0 th0, <[t := th']> ths !! t0 = Some th0 ∧ owns th0 l).
  { intros l (t0 & th0 & Ht0 & Hfl0 & Hl0).
    destruct (decide (t0 = t)) as [->|Hne].
    - exists t, th'. rewrite list_lookup_insert_eq by done. simplify_eq.
      split; [done|]. split; [|by rewrite Hmiss]. apply Hfl; [done|].
      intros Hnil. rewrite Hnil in Hl0. by apply elem_of_nil in Hl0.
    - exists t0, th0. by rewrite list_lookup_insert_ne. }
  split_and!; simpl.
  - intros t0 th0 [(<- & <- & _)|(Hne & Ht0)]%list_lookup_insert_Some; [done|].
    destruct (I1 t0 th0 Ht0) as [Hi Hc]. split.
    + by apply (thread_inv_ext w).
    + rewrite Hother, Hh by done. done.
  - intros k l. rewrite Hreg, Hh. intros Hk.
    destruct (I2 k l Hk) as [Hl Ho]. auto.
  - intros t1 t2 th1 th2 l.
    intros [(<- & <- & _)|(Hne1 & Ht1)]%list_lookup_insert_Some
           [(<- & <- & _)|(Hne2 & Ht2)]%list_lookup_insert_Some; try done.
    + rewrite Hmiss. intros. by eapply (I3 t t2).
    + rewrite Hmiss. intros. by eapply (I3 t1 t).
    + by apply I3.
  - intros l en. rewrite Hh. intros Hl. destruct (I4 l en Hl); auto.
  - intros t0 ks [Hin| ->]%Hlog.
    + apply lookup_lt_is_Some. rewrite length_insert.
      apply lookup_lt_is_Some. eauto.
    + apply lookup_lt_is_Some. by rewrite length_insert.
  - intros l. rewrite Hh. intros (t0 & th0 & Ht0 & Hl0)%I6.
    destruct (decide (t0 = t)) as [->|Hne].
    + exists t, th'. rewrite list_lookup_insert_eq by done. simplify_eq.
      by rewrite Hmiss.
    + exists t0, th0. by rewrite list_lookup_insert_ne.
Qed.

Lemma calls_of_app t w cs :
  calls_of t (MkWorld (g_m w) (heap w) (calls w ++ cs)) =
    calls_of t w ++ (snd <$> filter (λ c, c.1 = t) cs).
Proof. unfold calls_of. simpl. by rewrite filter_app, fmap_app. Qed.

(** *** The first critical section *)

Lemma lockedRegister_eq w keys w1 ents miss :
  lockedRegister zero w keys = (w1, ents, miss) →
  ∃ m' h', register zero keys (registry w) (heap w) [] [] = (m', h', ents, miss) ∧
           w1 = MkWorld (Some m') h' (calls w).
Proof.
  unfold lockedRegister, registry.
  destruct (g_m w) as [m|]; simpl;
    destruct (register _ _ _ _ _ _) as [[[m' h'] es] ms]; intros [= <- <- <-]; eauto.
Qed.

Lemma config_inv_register w ths t th w1 ents miss :
  config_inv zero (w, ths) → ths !! t = Some th → t_pc th = PStart →
  lockedRegister zero w (t_keys th) = (w1, ents, miss) →
  config_inv zero
    (w1, <[t := MkThread (t_ctx th) (t_keys th) (t_load th) ents miss PRegistered]> ths).
Proof.
  intros (I1 & I2 & I3 & I4 & I5 & I6) Hth Hpc Hreg. simpl in *.
  apply lockedRegister_eq in Hreg as (m' & h' & Hreg & ->).
  apply register_spec in Hreg
    as (es & ms & news & -> & -> & -> & HF & Hpres & Horig & Hkey & Hms
        & Hsub & Hnd & Hnew & Hall).
  2:{ intros k l Hk. destruct (I2 k l Hk) as [Hl _]. apply keyOf_Some. eauto. }
  simpl in *. set (th' := MkThread _ _ _ _ _ _).
  assert (Hlt : (t < length ths)%nat) by by eapply lookup_lt_Some.
  assert (Hnf : inflight th = false) by (unfold inflight; by rewrite Hpc).
  assert (Hown : ∀ l, (∃ t0 th0, ths !! t0 = Some th0 ∧ owns th0 l) →
            ∃ t0 th0, <[t := th']> ths !! t0 = Some th0 ∧ owns th0 l).
  { intros l (t0 & th0 & Ht0 & Hfl0 & Hl0).
    destruct (decide (t0 = t)) as [->|Hne]; [congruence|].
    exists t0, th0. by rewrite list_lookup_insert_ne. }
  assert (Hes : ∀ l k, l ∈ es → keyOf (heap w ++ news) l = Some k →
            reflexive k = true → m' !! k = Some l).
  { intros l k [i Hi]%list_elem_of_lookup Hk Hrk.
    destruct (Forall2_lookup_l _ _ _ _ _ HF Hi) as (k' & _ & Hk' & Hm').
    assert (k' = k) as -> by congruence. auto. }
  assert (Hmine : thread_inv zero (MkWorld (Some m') (heap w ++ news) (calls w)) th').
  { unfold thread_inv, locals_ok, pending_batch. simpl. split_and!; auto.
    - eapply Forall2_impl; [exact HF|]. by intros l k [? _].
    - intros l1 l2 k Hl1 Hl2 Hk1 Hk2 Hrk.
      pose proof (Hes _ _ Hl1 Hk1 Hrk). pose proof (Hes _ _ Hl2 Hk2 Hrk).
      congruence.
    - intros l Hl. destruct (Hms l Hl) as (_ & k & ? & ? & _). eauto. }
  split_and!; simpl.
  - intros t0 th0 [(<- & <- & _)|(Hne & Ht0)]%list_lookup_insert_Some.
    + split; [done|]. destruct (I1 t th Hth) as [_ Hc].
      unfold calls_of in *. simpl. rewrite Hc. unfold expected_calls. simpl.
      by rewrite Hpc.
    + destruct (I1 t0 th0 Ht0) as [Hi Hc]. split.
      * eapply thread_inv_frame; [exact Hi|..]; simpl.
        -- apply heap_le_app.
        -- intros l Hl. apply lookup_app_l. by eapply thread_inv_miss_lt.
        -- intros _ k l _. apply Hpres.
      * unfold calls_of in *. simpl. rewrite Hc. symmetry.
        apply expected_calls_frame; [apply heap_le_app|].
        by eapply thread_inv_locals.
  - intros k l Hk. unfold registry in Hk. simpl in Hk.
    destruct (Horig k l Hk) as [Ho|Hn].
    + destruct (I2 k l Ho) as [Hl Hw]. split; [|auto].
      rewrite lookup_app_l; [done|]. by eapply lookup_lt_Some.
    + destruct (Hms l Hn) as (_ & k' & Hl & Hk' & _).
      apply Hkey, keyOf_Some in Hk as (en & Hen & Hke).
      rewrite Hl in Hen. simplify_eq. simpl. split; [done|].
      exists t, th'. rewrite list_lookup_insert_eq by done. done.
  - assert (Hsep : ∀ t0 th0 l, t0 ≠ t → ths !! t0 = Some th0 →
              l ∈ t_miss th0 → l ∈ ms → False).
    { intros t0 th0 l Hne Ht0 Hl0 Hl.
      destruct (I1 t0 th0 Ht0) as [Hi _].
      pose proof (thread_inv_miss_lt _ _ _ Hi Hl0).
      destruct (Hms l Hl) as [? _]. lia. }
    intros t1 t2 th1 th2 l.
    intros [(<- & <- & _)|(Hne1 & Ht1)]%list_lookup_insert_Some
           [(<- & <- & _)|(Hne2 & Ht2)]%list_lookup_insert_Some; try done; simpl.
    + intros H1 H2. exfalso. eauto.
    + intros H1 H2. exfalso. eauto.
    + by apply I3.
  - intros l en Hl. destruct (decide (l < length (heap w))%nat) as [Hlo|Hhi].
    + rewrite lookup_app_l in Hl by done. destruct (I4 l en Hl); auto.
    + right. exists t, th'. rewrite list_lookup_insert_eq by done.
      split; [done|]. split; [done|]. simpl. apply Hnew.
      apply lookup_lt_Some in Hl. lia.
  - intros t0 ks Hin. apply lookup_lt_is_Some. rewrite length_insert.
    apply lookup_lt_is_Some. eauto.
  - intros l Hl. destruct (decide (l < length (heap w))%nat) as [Hlo|Hhi].
    + destruct (I6 l Hlo) as (t0 & th0 & Ht0 & Hl0).
      destruct (decide (t0 = t)) as [->|Hne].
      * simplify_eq. destruct (I1 t th Hth) as [Hi _]. unfold thread_inv in Hi.
        rewrite Hpc in Hi. destruct Hi as [_ Hnil]. rewrite Hnil in Hl0.
        by apply elem_of_nil in Hl0.
      * exists t0, th0. by rewrite list_lookup_insert_ne.
    + exists t, th'. rewrite list_lookup_insert_eq by done.
      split; [done|]. simpl. apply Hnew. lia.
Qed.

(** *** The second critical section *)

Lemma outcome_key r k : key (outcome zero r k) = k.
Proof. unfold outcome. destruct r.2; [done|]. by destruct (_ ≫= _). Qed.

Lemma outcome_wg r k : wg (outcome zero r k) = 0.
Proof. unfold outcome. destruct r.2; [done|]. by destruct (_ ≫= _). Qed.

Lemma fanOut_heap_le w ents r :
  NoDup ents →
  (∀ l, l ∈ ents → ∃ k, heap w !! l = Some (new_ent zero k)) →
  heap_le (heap w) (heap (fanOut w ents r)).
Proof.
  intros Hnd Hp. destruct (fanOut_spec r ents w Hnd Hp) as (_ & _ & Hout & Hin & _).
  intros l en Hl. destruct (decide (l ∈ ents)) as [Hm|Hm].
  - destruct (Hp l Hm) as [k Hk]. rewrite Hk in Hl. simplify_eq.
    exists (outcome zero r k). split_and!; [by apply Hin|by rewrite outcome_key|done].
  - exists en. rewrite Hout by done. auto.
Qed.

Lemma config_inv_fanOut w ths t th r :
  config_inv zero (w, ths) → ths !! t = Some th → t_pc th = PLoaded r →
  config_inv zero
    (fanOut w (t_miss th) r, <[t := at_pc th (PCollect (t_ents th) ∅)]> ths).
Proof.
  intros (I1 & I2 & I3 & I4 & I5 & I6) Hth Hpc. simpl in *.
  destruct (I1 t th Hth) as [Hinv Hcalls]. unfold thread_inv in Hinv.
  rewrite Hpc in Hinv. destruct Hinv as (Hok & Hpb & -> & Hne).
  pose proof Hok as (_ & _ & _ & Hnd).
  assert (Hp : ∀ l, l ∈ t_miss th → ∃ k, heap w !! l = Some (new_ent zero k)).
  { intros l Hl. destruct (Hpb l Hl) as (k & ? & _). eauto. }
  set (r := loaded (heap w) th) in *.
  destruct (fanOut_spec r _ w Hnd Hp) as (Hc & Hlen & Hout & Hin & Hreg).
  pose proof (fanOut_heap_le w _ r Hnd Hp) as Hle.
  set (w1 := fanOut w (t_miss th) r) in *.
  set (th' := at_pc th _).
  assert (Hlt : (t < length ths)%nat) by by eapply lookup_lt_Some.
  assert (Hkeys : ∀ k l, registry w !! k = Some l → k ∈ entKeys (heap w) (t_miss th) →
            l ∈ t_miss th).
  { intros k l Hk (l' & Hl' & Hkl')%elem_of_entKeys.
    destruct (Hpb l' Hl') as (k' & Hh & Hr). unfold keyOf in Hkl'.
    rewrite Hh in Hkl'. simpl in Hkl'. injection Hkl' as ->.
    specialize (Hr (gomap_lookup_reflexive _ _ _ Hk)). congruence. }
  assert (Hown : ∀ l, l ∉ t_miss th →
            (∃ t0 th0, ths !! t0 = Some th0 ∧ owns th0 l) →
            ∃ t0 th0, <[t := th']> ths !! t0 = Some th0 ∧ owns th0 l).
  { intros l Hnl (t0 & th0 & Ht0 & Hfl0 & Hl0).
    destruct (decide (t0 = t)) as [->|Hnt]; [by simplify_eq|].
    exists t0, th0. by rewrite list_lookup_insert_ne. }
  split_and!; simpl.
  - intros t0 th0 [(<- & <- & _)|(Hnt & Ht0)]%list_lookup_insert_Some.
    + split.
      * unfold thread_inv. simpl. split_and!.
        -- by apply (locals_ok_heap_le (heap w)).
        -- intros l Hl. destruct (Hp l Hl) as [k Hk]. exists k.
           change (loaded (heap w1) th') with (loaded (heap w1) th).
           rewrite (loaded_heap_le (heap w)) by done. by apply Hin.
        -- exists []. done.
      * unfold calls_of in *. rewrite Hc, Hcalls. unfold expected_calls.
        simpl. rewrite Hpc. case_bool_decide; [|done].
        by rewrite (heap_le_entKeys (heap w) (heap w1))
          by eauto using locals_ok_miss_valid.
    + destruct (I1 t0 th0 Ht0) as [Hi Hcs]. split.
      * eapply thread_inv_frame; [exact Hi|done|..].
        -- intros l Hl. apply Hout. intros Hl'. apply Hnt. by eapply I3.
        -- intros _ k l Hl Hk. rewrite Hreg. case_decide as Hd; [|done].
           exfalso. apply Hnt. eapply I3; eauto.
      * unfold calls_of in *. rewrite Hc, Hcs. symmetry.
        apply expected_calls_frame; [done|]. by eapply thread_inv_locals.
  - intros k l. rewrite Hreg. case_decide as Hd; [done|]. intros Hk.
    destruct (I2 k l Hk) as [Hl Hw].
    assert (l ∉ t_miss th).
    { intros Hm. apply Hd. apply elem_of_entKeys. exists l. split; [done|].
      unfold keyOf. by rewrite Hl. }
    rewrite Hout by done. auto.
  - intros t1 t2 th1 th2 l.
    intros [(<- & <- & _)|(Hne1 & Ht1)]%list_lookup_insert_Some
           [(<- & <- & _)|(Hne2 & Ht2)]%list_lookup_insert_Some; try done; simpl.
    + intros. by eapply (I3 t t2).
    + intros. by eapply (I3 t1 t).
    + by apply I3.
  - intros l en Hl. destruct (decide (l ∈ t_miss th)) as [Hm|Hm].
    + destruct (Hp l Hm) as [k Hk]. rewrite (Hin l k) in Hl by done.
      simplify_eq. left. apply outcome_wg.
    + rewrite Hout in Hl by done. destruct (I4 l en Hl); auto.
  - intros t0 ks. rewrite Hc. intros Hin0. apply lookup_lt_is_Some.
    rewrite length_insert. apply lookup_lt_is_Some. eauto.
  - intros l. rewrite Hlen. intros (t0 & th0 & Ht0 & Hl0)%I6.
    destruct (decide (t0 = t)) as [->|Hnt].
    + exists t, th'. rewrite list_lookup_insert_eq by done. by simplify_eq.
    + exists t0, th0. by rewrite list_lookup_insert_ne.
Qed.

(** *** Every step of every call keeps the invariant *)

Lemma config_inv_sched_step cf t :
  config_inv zero cf → config_inv zero (sched_step zero cf t).
Proof.
  destruct cf as [w ths]. intros Hinv. unfold sched_step. simpl.
  destruct (ths !! t) as [th|] eqn:Hth; [|done].
  destruct (thread_step zero t w th) as [[w' th']|] eqn:Hstep; [|done].
  pose proof Hinv as (I1 & _). destruct (I1 t th Hth) as [Hti Hcalls].
  simpl in *. unfold thread_step in Hstep. unfold thread_inv in Hti.
  destruct (t_pc th) as [| |r|rest result|r] eqn:Hpc.
  - destruct (lockedRegister zero w (t_keys th)) as [[w1 ents] miss] eqn:Hreg.
    simplify_eq. by eapply config_inv_register.
  - destruct Hti as (Hok & Hpb). case_bool_decide as Hlen.
    + unfold callLoader in Hstep. simplify_eq.
      eapply (config_inv_update w); eauto; simpl.
      * unfold thread_inv. simpl. split_and!; auto.
        intros Hnil. rewrite Hnil in Hlen. simpl in Hlen. lia.
      * rewrite calls_of_app, Hcalls. unfold expected_calls. simpl.
        rewrite Hpc, bool_decide_true by done. simpl.
        rewrite filter_cons_True by done. done.
      * intros t' Hne. rewrite calls_of_app. simpl.
        rewrite filter_cons_False by (simpl; congruence).
        by rewrite app_nil_r.
      * intros t0 ks [?|[= -> ->]%list_elem_of_singleton]%elem_of_app; auto.
    + simplify_eq. eapply (config_inv_update w'); eauto; simpl.
      * intros _ Hne. destruct (t_miss th); [done|]. simpl in Hlen. lia.
      * unfold thread_inv. simpl. split_and!; auto.
        -- intros l Hl. simpl in Hl. destruct (t_miss th); [|simpl in Hlen; lia].
           by apply elem_of_nil in Hl.
        -- exists []. done.
      * rewrite Hcalls. unfold expected_calls. simpl.
        by rewrite Hpc, bool_decide_false.
  - simplify_eq. by apply config_inv_fanOut.
  - destruct Hti as (Hok & Hcb & pre & Hpre & Hcol).
    assert (Hexp : ∀ p, match p with PStart | PRegistered => False | _ => True end →
              calls_of t w = expected_calls (heap w) (at_pc th p)).
    { intros p Hp. rewrite Hcalls. unfold expected_calls. rewrite Hpc. simpl.
      by destruct p. }
    assert (Hnf : inflight th = true → t_miss th ≠ [] → False).
    { unfold inflight. by rewrite Hpc. }
    destruct rest as [|e rest].
    + simplify_eq.
      eapply (config_inv_update w'); eauto; simpl; try (by apply Hexp);
        try (intros Hf Hm; by destruct (Hnf Hf Hm)).
      unfold thread_inv. simpl. split_and!; auto.
      by rewrite Hpre, app_nil_r.
    + destruct (heap w !! e) as [en|] eqn:He; [|done].
      destruct (completed en) eqn:Hd; [|done].
      destruct (collect1 en result) as [result'|r] eqn:H1; simplify_eq.
      * eapply (config_inv_update w'); eauto; simpl; try (by apply Hexp);
          try (intros Hf Hm; by destruct (Hnf Hf Hm)).
        unfold thread_inv. simpl. split_and!; auto.
        exists (pre ++ [e]). rewrite <- app_assoc. split; [done|].
        by eapply collect_snoc.
      * eapply (config_inv_update w'); eauto; simpl; try (by apply Hexp);
          try (intros Hf Hm; by destruct (Hnf Hf Hm)).
        unfold thread_inv. simpl. split_and!; auto.
        rewrite Hpre. by eapply collect_snoc_return.
  - done.
Qed.

Lemma config_inv_init (cs : list (Ctx * list K * Loader)) :
  config_inv zero (init cs).
Proof.
  unfold init. split_and!; simpl.
  - intros t th Hth. apply list_lookup_fmap_Some in Hth as (a & -> & _).
    done.
  - intros k l Hk. unfold registry in Hk. simpl in Hk.
    by rewrite gomap_lookup_empty in Hk.
  - intros t1 t2 th1 th2 l (a & -> & _)%list_lookup_fmap_Some _ Hl.
    by apply elem_of_nil in Hl.
  - intros l en Hl. by rewrite lookup_nil in Hl.
  - intros t ks Hin. by apply elem_of_nil in Hin.
  - intros l Hl. lia.
Qed.

Lemma config_inv_run sched : ∀ cf,
  config_inv zero cf → config_inv zero (run zero sched cf).
Proof.
  induction sched as [|t sched IH]; intros cf Hinv; [done|].
  simpl. apply IH. by apply config_inv_sched_step.
Qed.

(** The invariant holds in every configuration that the calls can reach
    from a fresh group. *)
Lemma reachable_inv (cs : list (Ctx * list K * Loader)) sched :
  config_inv zero (run zero sched (init cs)).
Proof. apply config_inv_run, config_inv_init. Qed.

(** *** Scheduling *)

Lemma run_app s1 s2 cf : run zero (s1 ++ s2) cf = run zero s2 (run zero s1 cf).
Proof. unfold run. apply foldl_app. Qed.

Lemma run_replicate_S n t cf :
  run zero (replicate (S n) t) cf = run zero (replicate n t) (sched_step zero cf t).
Proof. done. Qed.

Lemma sched_step_other cf t t' :
  t' ≠ t → (sched_step zero cf t).2 !! t' = cf.2 !! t'.
Proof.
  intros Hne. unfold sched_step. destruct (cf.2 !! t) as [th|]; [|done].
  destruct (thread_step zero t cf.1 th) as [[w' th']|]; [|done].
  simpl. by rewrite list_lookup_insert_ne.
Qed.

Lemma sched_step_length cf t : length (sched_step zero cf t).2 = length cf.2.
Proof.
  unfold sched_step. destruct (cf.2 !! t) as [th|]; [|done].
  destruct (thread_step zero t cf.1 th) as [[w' th']|]; [|done].
  simpl. by rewrite length_insert.
Qed.

Lemma run_length sched : ∀ cf, length (run zero sched cf).2 = length cf.2.
Proof.
  induction sched as [|t sched IH]; intros cf; [done|].
  simpl. by rewrite IH, sched_step_length.
Qed.

Lemma run_replicate_other n t t' : ∀ cf,
  t' ≠ t → (run zero (replicate n t) cf).2 !! t' = cf.2 !! t'.
Proof.
  induction n as [|n IH]; intros cf Hne; [done|].
  simpl. rewrite IH by done. by apply sched_step_other.
Qed.

Lemma sched_step_enabled cf t th w' th' :
  cf.2 !! t = Some th → thread_step zero t cf.1 th = Some (w', th') →
  sched_step zero cf t = (w', <[t := th']> cf.2).
Proof. intros Hth Hs. unfold sched_step. by rewrite Hth, Hs. Qed.

Lemma sched_step_same cf t th w' th' :
  cf.2 !! t = Some th → thread_step zero t cf.1 th = Some (w', th') →
  (sched_step zero cf t).2 !! t = Some th'.
Proof.
  intros Hth Hs. rewrite (sched_step_enabled _ _ _ _ _ Hth Hs). simpl.
  apply list_lookup_insert_eq. by eapply lookup_lt_Some.
Qed.

(** A call that is not settled is never blocked. *)
Lemma unsettled_step t w th :
  settled th = false →
  ∃ w' th', thread_step zero t w th = Some (w', th') ∧
            (to_settle th' < to_settle th)%nat.
Proof.
  unfold settled, thread_step, to_settle.
  destruct (t_pc th) eqn:Hpc; try done; intros _.
  - destruct (lockedRegister _ _ _) as [[w1 ents] miss]. eexists _, _.
    split; [done|]. simpl. lia.
  - case_bool_decide.
    + unfold callLoader. eexists _, _. split; [done|]. simpl. lia.
    + eexists _, _. split; [done|]. simpl. lia.
  - eexists _, _. split; [done|]. simpl. lia.
Qed.

(** A settled call stays settled and changes nothing but its own state. *)
Lemma settled_step t w th w' th' :
  settled th = true → thread_step zero t w th = Some (w', th') →
  w' = w ∧ settled th' = true ∧ (to_return th' < to_return th)%nat.
Proof.
  unfold settled, thread_step, to_return.
  destruct (t_pc th) as [| | |rest result|] eqn:Hpc; try done; intros _.
  destruct rest as [|e rest].
  - intros [= <- <-]. simpl. split_and!; auto.
  - destruct (heap w !! e) as [en|]; [|done].
    destruct (completed en); [|done].
    destruct (collect1 en result); intros [= <- <-]; simpl; split_and!; auto; lia.
Qed.

Lemma settle_one n t : ∀ cf th,
  cf.2 !! t = Some th → (to_settle th ≤ n)%nat →
  ∃ th', (run zero (replicate n t) cf).2 !! t = Some th' ∧ settled th' = true.
Proof.
  induction n as [|n IH]; intros cf th Hth Hn.
  - exists th. split; [done|]. unfold to_settle, settled in *.
    destruct (t_pc th); simpl in *; done || lia.
  - simpl. destruct (settled th) eqn:Hs.
    + destruct (thread_step zero t cf.1 th) as [[w' th']|] eqn:Hstep.
      * destruct (settled_step _ _ _ _ _ Hs Hstep) as (_ & Hs' & _).
        apply (IH _ th'); [by eapply sched_step_same|].
        unfold to_settle, settled in *. destruct (t_pc th'); simpl in *; done || lia.
      * apply (IH _ th).
        -- unfold sched_step. by rewrite Hth, Hstep.
        -- unfold to_settle, settled in *. destruct (t_pc th); simpl in *; done || lia.
    + destruct (unsettled_step t cf.1 th Hs) as (w' & th' & Hstep & Hlt).
      apply (IH _ th'); [by eapply sched_step_same|lia].
Qed.

Lemma to_settle_le th : (to_settle th ≤ 3)%nat.
Proof. unfold to_settle. destruct (t_pc th); lia. Qed.

Lemma round_S f n : round f (S n) = round f n ++ replicate (f n) n.
Proof.
  unfold round. rewrite seq_S, flat_map_app. simpl. by rewrite app_nil_r.
Qed.

Lemma round_lookup_ge f n cf t :
  (n ≤ t)%nat → (run zero (round f n) cf).2 !! t = cf.2 !! t.
Proof.
  induction n as [|n IH]; intros Hle; [done|].
  rewrite round_S, run_app, run_replicate_other by lia. apply IH. lia.
Qed.

(** One round of three steps each settles every call. *)
Lemma settle_all cf :
  ∀ t th, (run zero (round (λ _, 3%nat) (length cf.2)) cf).2 !! t = Some th →
          settled th = true.
Proof.
  assert (Hgen : ∀ n t th, (t < n)%nat →
    (run zero (round (λ _, 3%nat) n) cf).2 !! t = Some th → settled th = true).
  { induction n as [|n IH]; intros t th Hlt Hth; [lia|].
    rewrite round_S, run_app in Hth.
    destruct (decide (t = n)) as [->|Hne].
    - set (cf1 := run zero (round _ n) cf) in *.
      destruct (cf1.2 !! n) as [th0|] eqn:Hn.
      + destruct (settle_one 3 n cf1 th0 Hn (to_settle_le _)) as (th' & Hth' & Hs).
        by simplify_eq.
      + apply lookup_lt_Some in Hth. rewrite run_length in Hth.
        apply lookup_ge_None in Hn. lia.
    - rewrite run_replicate_other in Hth by done. apply (IH t); [lia|done]. }
  intros t th Hth. apply (Hgen (length cf.2) t); [|done].
  apply lookup_lt_Some in Hth. by rewrite run_length in Hth.
Qed.

(** Once every call is settled the group stays as it is, and nothing is
    pending. *)
Lemma all_settled_step cf t :
  all_settled cf →
  (sched_step zero cf t).1 = cf.1 ∧ all_settled (sched_step zero cf t).
Proof.
  intros Hall. unfold sched_step.
  destruct (cf.2 !! t) as [th|] eqn:Hth; [|done].
  destruct (thread_step zero t cf.1 th) as [[w' th']|] eqn:Hstep; [|done].
  destruct (settled_step _ _ _ _ _ (Hall t th Hth) Hstep) as (-> & Hs & _).
  split; [done|]. intros t0 th0. simpl.
  intros [(<- & <- & _)|(Hne & Ht0)]%list_lookup_insert_Some; [done|].
  by apply (Hall t0).
Qed.

Lemma all_settled_run sched : ∀ cf,
  all_settled cf → (run zero sched cf).1 = cf.1 ∧ all_settled (run zero sched cf).
Proof.
  induction sched as [|t sched IH]; intros cf Hall; [done|].
  simpl. destruct (all_settled_step cf t Hall) as [Hw Hall'].
  destruct (IH _ Hall') as [Hw' Hall'']. split; [congruence|done].
Qed.

Lemma all_settled_completed cf l en :
  config_inv zero cf → all_settled cf → heap cf.1 !! l = Some en → wg en = 0.
Proof.
  intros (_ & _ & _ & I4 & _) Hall Hl.
  destruct (I4 l en Hl) as [?|(t & th & Hth & Hfl & _)]; [done|].
  specialize (Hall t th Hth). unfold settled, inflight in *.
  destruct (t_pc th); done.
Qed.

Lemma return_one n t : ∀ cf th,
  config_inv zero cf → all_settled cf →
  cf.2 !! t = Some th → (to_return th ≤ n)%nat →
  ∃ th', (run zero (replicate n t) cf).2 !! t = Some th' ∧ returned th' = true.
Proof.
  induction n as [|n IH]; intros cf th Hinv Hall Hth Hn.
  - exists th. split; [done|]. specialize (Hall t th Hth).
    unfold to_return, settled, returned in *. destruct (t_pc th); simpl in *; done || lia.
  - simpl. destruct (thread_step zero t cf.1 th) as [[w' th']|] eqn:Hstep.
    + destruct (settled_step _ _ _ _ _ (Hall t th Hth) Hstep) as (_ & _ & Hlt).
      apply (IH _ th').
      * by apply config_inv_sched_step.
      * by apply all_settled_step.
      * by eapply sched_step_same.
      * lia.
    + assert (sched_step zero cf t = cf) as ->.
      { unfold sched_step. by rewrite Hth, Hstep. }
      assert (Hret : returned th = true); [|clear Hstep].
      { pose proof Hinv as (I1 & _). destruct (I1 t th Hth) as [Hti _].
        pose proof (Hall t th Hth) as Hs. clear I1.
        unfold thread_step, thread_inv, settled, returned in Hstep, Hti, Hs |- *.
        destruct (t_pc th) as [| | |rest result|]; try done.
        destruct rest as [|e rest]; [done|].
        destruct Hti as (Hok & _ & pre & Hpre & _).
        destruct (locals_ok_valid _ _ e Hok) as [en He].
        { rewrite Hpre. apply elem_of_app. right. left. }
        rewrite He in Hstep. unfold completed in Hstep.
        rewrite bool_decide_true in Hstep
          by by eapply (all_settled_completed cf e en).
        by destruct (collect1 en result). }
      destruct (IH cf th Hinv Hall Hth) as (th' & Hth' & Hr').
      { unfold to_return, returned in *. destruct (t_pc th); simpl in *; done || lia. }
      eauto.
Qed.

Lemma return_all cf :
  config_inv zero cf → all_settled cf →
  ∃ sched, ∀ t th, (run zero sched cf).2 !! t = Some th → returned th = true.
Proof.
  intros Hinv Hall.
  set (f := λ t, match cf.2 !! t with Some th => to_return th | None => 0%nat end).
  exists (round f (length cf.2)).
  assert (Hgen : ∀ n t th, (t < n)%nat →
    (run zero (round f n) cf).2 !! t = Some th → returned th = true).
  { induction n as [|n IH]; intros t th Hlt Hth; [lia|].
    rewrite round_S, run_app in Hth.
    set (cf1 := run zero (round f n) cf) in *.
    destruct (decide (t = n)) as [->|Hne].
    - destruct (cf.2 !! n) as [th0|] eqn:Hn.
      + assert (Hn1 : cf1.2 !! n = Some th0).
        { unfold cf1. by rewrite round_lookup_ge. }
        destruct (return_one (f n) n cf1 th0) as (th' & Hth' & Hr); auto.
        * by apply config_inv_run.
        * by apply all_settled_run.
        * unfold f. by rewrite Hn.
        * by simplify_eq.
      + apply lookup_lt_Some in Hth. unfold cf1 in Hth.
        rewrite !run_length in Hth. apply lookup_ge_None in Hn. lia.
    - rewrite run_replicate_other in Hth by done. apply (IH t); [lia|done]. }
  intros t th Hth. apply (Hgen (length cf.2) t); [|done].
  apply lookup_lt_Some in Hth. by rewrite run_length in Hth.
Qed.

(** From every configuration the calls can reach, some schedule lets all
    of them return: no call is left waiting for ever. *)
Lemma can_return (cs : list (Ctx * list K * Loader)) sched :
  ∃ sched', ∀ t th,
    (run zero (sched ++ sched') (init cs)).2 !! t = Some th → returned th = true.
Proof.
  set (cf := run zero sched (init cs)).
  assert (Hinv : config_inv zero cf) by apply reachable_inv.
  set (cf1 := run zero (round (λ _, 3%nat) (length cf.2)) cf).
  destruct (return_all cf1) as [s2 Hs2].
  { by apply config_inv_run. }
  { intros t th. apply settle_all. }
  exists (round (λ _, 3%nat) (length cf.2) ++ s2).
  intros t th. rewrite !run_app. apply Hs2.
Qed.

(** *** [Do] run alone is one schedule of the call *)

Lemma register_length keys : ∀ m h ents miss m' h' ents' miss',
  register zero keys m h ents miss = (m', h', ents', miss') →
  length ents' = (length ents + length keys)%nat.
Proof.
  induction keys as [|k keys IH]; intros m h ents miss m' h' ents' miss' Hr;
    simpl in Hr.
  - simplify_eq. simpl. lia.
  - destruct (m !! k); apply IH in Hr; rewrite length_app in Hr; simpl in *; lia.
Qed.

Lemma collect_run t rest : ∀ n result cf th r,
  cf.2 !! t = Some th → t_pc th = PCollect rest result →
  collect (heap cf.1) rest result = Some r → (length rest < n)%nat →
  run zero (replicate n t) cf = (cf.1, <[t := at_pc th (PReturned r)]> cf.2).
Proof.
  assert (Hdone : ∀ n cf th r, cf.2 !! t = Some th → t_pc th = PReturned r →
            run zero (replicate n t) cf = cf).
  { induction n as [|n IH]; intros cf th r Hth Hpc; [done|]. simpl.
    assert (sched_step zero cf t = cf) as ->; [|by eapply IH].
    unfold sched_step, thread_step. by rewrite Hth, Hpc. }
  induction rest as [|e rest IH]; intros n result cf th r Hth Hpc Hc Hn;
    (destruct n as [|n]; [simpl in Hn; lia|]); rewrite run_replicate_S;
    simpl in Hc.
  - simplify_eq.
    erewrite sched_step_enabled; [|done|unfold thread_step; by rewrite Hpc].
    erewrite Hdone; [done|..]; simpl.
    + apply list_lookup_insert_eq. by eapply lookup_lt_Some.
    + done.
  - destruct (heap cf.1 !! e) as [en|] eqn:He; [|done].
    destruct (completed en) eqn:Hd; [|done].
    destruct (collect1 en result) as [result'|r'] eqn:H1.
    + erewrite sched_step_enabled;
        [|done|unfold thread_step; by rewrite Hpc, He, Hd, H1].
      rewrite (IH n result' (cf.1, <[t := at_pc th (PCollect rest result')]> cf.2)
                 (at_pc th (PCollect rest result')) r); simpl.
      * by rewrite list_insert_insert_eq.
      * apply list_lookup_insert_eq. by eapply lookup_lt_Some.
      * done.
      * done.
      * simpl in Hn. lia.
    + simplify_eq.
      erewrite sched_step_enabled;
        [|done|unfold thread_step; by rewrite Hpc, He, Hd, H1].
      erewrite Hdone; [done|..]; simpl.
      * apply list_lookup_insert_eq. by eapply lookup_lt_Some.
      * done.
Qed.

(** When [Do] run alone returns [r], scheduling the call alone for long
    enough reaches the same group state with the call returned with [r]. *)
Lemma Do_run t w (ths : list thread) ctx keys load w2 r :
  ths !! t = Some (call (ctx, keys, load)) →
  Do zero t w ctx keys load = (w2, Some r) →
  ∃ th', run zero (replicate (4 + length keys) t) (w, ths) = (w2, <[t := th']> ths) ∧
         t_pc th' = PReturned r ∧ t_keys th' = keys.
Proof.
  intros Hth HDo. unfold Do in HDo.
  destruct (lockedRegister zero w keys) as [[w1 ents] miss] eqn:Hreg.
  assert (Hlen : length ents = length keys).
  { apply lockedRegister_eq in Hreg as (m' & h' & Hreg & _).
    by apply register_length in Hreg. }
  assert (Hlt : (t < length ths)%nat) by by eapply lookup_lt_Some.
  set (th1 := MkThread ctx keys load ents miss PRegistered).
  change (4 + length keys)%nat with (S (S (S (S (length keys))))).
  rewrite run_replicate_S.
  rewrite (sched_step_enabled (w, ths) t _ w1 th1 Hth)
    by (unfold thread_step; simpl; by rewrite Hreg).
  assert (Hth1 : ∀ th0, <[t := th0]> ths !! t = Some th0).
  { intros. by apply list_lookup_insert_eq. }
  rewrite run_replicate_S. cbn [snd] in *.
  case_bool_decide as Hm.
  - unfold doLoad in HDo.
    destruct (callLoader t w1 ctx miss load) as [w1' r1] eqn:Hcl.
    rewrite (sched_step_enabled (w1, <[t:=th1]> ths) t th1 w1'
               (at_pc th1 (PLoaded r1)) (Hth1 _)).
    2:{ unfold callLoader in Hcl. injection Hcl as <- <-.
        unfold thread_step. simpl. by rewrite bool_decide_true. }
    cbn [snd]. rewrite list_insert_insert_eq, run_replicate_S.
    rewrite (sched_step_enabled (w1', _) t _ (fanOut w1' miss r1)
               (at_pc th1 (PCollect ents ∅)) (Hth1 _)) by done.
    cbn [snd]. rewrite list_insert_insert_eq. simplify_eq.
    rewrite (collect_run t ents (S (length keys)) ∅ (fanOut w1' miss r1, _)
               (at_pc th1 (PCollect ents ∅)) r (Hth1 _)); [|done|done|lia].
    cbn [fst snd]. rewrite list_insert_insert_eq. eexists. split; [done|]. done.
  - rewrite (sched_step_enabled (w1, <[t:=th1]> ths) t th1 w1
               (at_pc th1 (PCollect ents ∅)) (Hth1 _)).
    2:{ unfold thread_step. simpl. by rewrite bool_decide_false. }
    cbn [snd]. rewrite list_insert_insert_eq. simplify_eq.
    rewrite (collect_run t ents (S (S (length keys))) ∅ (w2, _)
               (at_pc th1 (PCollect ents ∅)) r (Hth1 _)); [|done|done|lia].
    cbn [fst snd]. rewrite list_insert_insert_eq. eexists. split; [done|]. done.
Qed.

(** *** Consequences of the invariant for one call *)

Lemma reachable_thread (cs : list (Ctx * list K * Loader)) sched t th :
  (run zero sched (init cs)).2 !! t = Some th →
  thread_inv zero (run zero sched (init cs)).1 th ∧
  calls_of t (run zero sched (init cs)).1 =
    expected_calls (heap (run zero sched (init cs)).1) th.
Proof. intros Hth. by apply (reachable_inv cs sched). Qed.

Lemma settled_inv w th :
  thread_inv zero w th → settled th = true →
  locals_ok (heap w) th ∧ completed_batch zero w th.
Proof.
  unfold thread_inv, settled. destruct (t_pc th); try done; intuition.
Qed.

Lemma returned_inv w th r :
  thread_inv zero w th → t_pc th = PReturned r →
  locals_ok (heap w) th ∧ completed_batch zero w th ∧
  collect (heap w) (t_ents th) ∅ = Some r.
Proof. unfold thread_inv. intros Hi Hpc. by rewrite Hpc in Hi. Qed.

Lemma locals_ok_length h th : locals_ok h th → length (t_ents th) = length (t_keys th).
Proof. intros (HF & _). by eapply Forall2_length. Qed.

Lemma locals_ok_ent_key h th l :
  locals_ok h th → l ∈ t_ents th → ∃ k, keyOf h l = Some k ∧ k ∈ t_keys th.
Proof.
  intros (HF & _) [i Hi]%list_elem_of_lookup.
  destruct (Forall2_lookup_l _ _ _ _ _ HF Hi) as (k & Hk & Hkey).
  exists k. split; [done|]. by eapply list_elem_of_lookup_2.
Qed.

Lemma locals_ok_key_ent h th k :
  locals_ok h th → k ∈ t_keys th → ∃ l, l ∈ t_ents th ∧ keyOf h l = Some k.
Proof.
  intros (HF & _) [i Hi]%list_elem_of_lookup.
  destruct (Forall2_lookup_r _ _ _ _ _ HF Hi) as (l & Hl & Hkey).
  exists l. split; [|done]. by eapply list_elem_of_lookup_2.
Qed.

Lemma entKeys_lookup h ms : ∀ i,
  (∀ l, l ∈ ms → is_Some (h !! l)) →
  entKeys h ms !! i = ms !! i ≫= keyOf h.
Proof.
  induction ms as [|e ms IH]; intros i Hv; [done|].
  rewrite entKeys_cons. destruct (Hv e) as [en Hen]; [left|].
  unfold keyOf at 1. rewrite Hen. simpl. destruct i as [|i]; simpl.
  - unfold keyOf. by rewrite Hen.
  - apply IH. intros l Hl. apply Hv. by right.
Qed.

Lemma entKeys_length h ms :
  (∀ l, l ∈ ms → is_Some (h !! l)) → length (entKeys h ms) = length ms.
Proof.
  induction ms as [|e ms IH]; intros Hv; [done|].
  rewrite entKeys_cons. destruct (Hv e) as [en Hen]; [left|].
  unfold keyOf. rewrite Hen. simpl. f_equal. apply IH.
  intros l Hl. apply Hv. by right.
Qed.

Lemma distinct_keys_NoDup (ks : list K) :
  distinct_keys ks → (∀ k, k ∈ ks → reflexive k = true) → NoDup ks.
Proof.
  intros Hd Hr. apply NoDup_alt. intros i j k Hi Hj.
  eapply Hd; eauto. apply Hr. by eapply list_elem_of_lookup_2.
Qed.

(** The keys handed to the loader are pairwise not [==], one per miss. *)
Lemma locals_ok_entKeys h th :
  locals_ok h th →
  distinct_keys (entKeys h (t_miss th)) ∧
  length (entKeys h (t_miss th)) = length (t_miss th) ∧
  (∀ k, k ∈ entKeys h (t_miss th) → k ∈ t_keys th).
Proof.
  intros Hok. pose proof Hok as (HF & Hsub & Hinj & Hnd).
  assert (Hv : ∀ l, l ∈ t_miss th → is_Some (h !! l))
    by eauto using locals_ok_miss_valid.
  split_and!.
  - intros i j k Hi Hj Hrk. rewrite entKeys_lookup in Hi, Hj by done.
    destruct (t_miss th !! i) as [l1|] eqn:H1; [|done].
    destruct (t_miss th !! j) as [l2|] eqn:H2; [|done].
    simpl in Hi, Hj.
    assert (l1 = l2) as ->.
    { eapply Hinj; eauto; apply Hsub; by eapply list_elem_of_lookup_2. }
    by eapply NoDup_lookup.
  - by apply entKeys_length.
  - intros k (l & Hl & Hkl)%elem_of_entKeys.
    destruct (locals_ok_ent_key h th l Hok (Hsub l Hl)) as (k' & Hk' & Hin).
    congruence.
Qed.

Lemma register_step_miss_keys w th w1 ents miss k :
  (∀ k l, registry w !! k = Some l → keyOf (heap w) l = Some k) →
  lockedRegister zero w (t_keys th) = (w1, ents, miss) →
  k ∈ entKeys (heap w1) miss ↔ k ∈ t_keys th ∧ registry w !! k = None.
Proof.
  intros Hwf Hreg. apply lockedRegister_eq in Hreg as (m' & h' & Hreg & ->).
  apply register_spec in Hreg
    as (es & ms & news & -> & -> & -> & HF & Hpres & Horig & Hkey & Hms
        & Hsub & Hnd & Hnew & Hall); [|done].
  simpl. rewrite elem_of_entKeys. split.
  - intros (l & Hl & Hk). destruct (Hms l Hl) as (_ & k' & Hh & _ & Hn & Hin).
    unfold keyOf in Hk. rewrite Hh in Hk. simpl in Hk. by simplify_eq.
  - intros [Hin Hn]. destruct (Hall k Hin Hn) as (l & Hl & Hkl & _). eauto.
Qed.

Lemma call_can_return (cs : list (Ctx * list K * Loader)) sched t th :
  (run zero sched (init cs)).2 !! t = Some th →
  ∃ sched' th' r,
    (run zero (sched ++ sched') (init cs)).2 !! t = Some th' ∧
    t_pc th' = PReturned r.
Proof.
  intros Hth. destruct (can_return cs sched) as [sched' Hret].
  exists sched'.
  destruct ((run zero (sched ++ sched') (init cs)).2 !! t) as [th'|] eqn:Hth'.
  - specialize (Hret t th' Hth'). unfold returned in Hret.
    destruct (t_pc th') as [| | | |r] eqn:Hpc; try done. eauto.
  - apply lookup_ge_None in Hth'. apply lookup_lt_Some in Hth.
    rewrite run_app, run_length in Hth'. lia.
Qed.

Lemma passes_not_fails en er : passes en → fails_with en er → False.
Proof. intros [_ Hp] (_ & He & Hf). rewrite He in Hp. congruence. Qed.

Lemma outcome_success vals k :
  outcome zero (vals, None) k =
    match vals ≫= (.!! k) with
    | Some v => Ent 0 k v None
    | None => Ent 0 k zero (Some errResultNotFound)
    end.
Proof. done. Qed.

Lemma outcome_failure vals er k :
  outcome zero (vals, Some er) k = Ent 0 k zero (Some er).
Proof. done. Qed.

Lemma outcome_success_passes vals k : passes (outcome zero (vals, None) k).
Proof.
  rewrite outcome_success. destruct (vals ≫= _); split; simpl; done.
Qed.

(** The entry a settled call completed for one of its misses. *)
Lemma settled_miss_entry w th l k :
  thread_inv zero w th → settled th = true → l ∈ t_miss th →
  keyOf (heap w) l = Some k →
  heap w !! l = Some (outcome zero (loaded (heap w) th) k).
Proof.
  intros Hinv Hs Hl Hk. destruct (settled_inv _ _ Hinv Hs) as [_ Hcb].
  destruct (Hcb l Hl) as [k' Hk']. unfold keyOf in Hk. rewrite Hk' in Hk.
  simpl in Hk. rewrite outcome_key in Hk. by simplify_eq.
Qed.

Lemma keyOf_fan1 r w e l : keyOf (heap (fan1 r w e)) l = keyOf (heap w) l.
Proof.
  unfold fan1, setFromVals, setCallErr, setCallResult, keyOf.
  destruct r.2; destruct (heap w !! e) as [en|] eqn:He; simpl; try done;
    try destruct (_ ≫= _); simpl; rewrite ?He; simpl;
    (destruct (decide (l = e)) as [->|Hne];
     [rewrite list_lookup_insert_eq by (by eapply lookup_lt_Some); by rewrite He
     |by rewrite list_lookup_insert_ne]).
Qed.

Lemma entKeys_keyOf_ext h h' ents :
  (∀ l, keyOf h' l = keyOf h l) → entKeys h' ents = entKeys h ents.
Proof.
  intros Hk. induction ents as [|e ents IH]; [done|].
  by rewrite !entKeys_cons, Hk, IH.
Qed.

(** The second critical section reads the loader's mapping only at the
    keys of the batch. *)
Lemma fanOut_ext ents vals vals' er : ∀ w,
  (∀ k, k ∈ entKeys (heap w) ents → (vals ≫= (.!! k)) = (vals' ≫= (.!! k))) →
  fanOut w ents (vals, er) = fanOut w ents (vals', er).
Proof.
  intros w. rewrite !fanOut_foldl. revert w.
  induction ents as [|e ents IH]; intros w Hag; [done|]. simpl.
  assert (H1 : fan1 (vals, er) w e = fan1 (vals', er) w e).
  { unfold fan1, setFromVals. simpl. destruct er; [done|].
    destruct (heap w !! e) as [en|] eqn:He; [|done].
    rewrite (Hag (key en)); [done|]. apply elem_of_entKeys. exists e.
    split; [left|]. unfold keyOf. by rewrite He. }
  rewrite H1. apply IH. intros k Hk. apply Hag.
  rewrite (entKeys_keyOf_ext (heap w)) in Hk by apply keyOf_fan1.
  rewrite entKeys_cons. destruct (keyOf (heap w) e); [by right|done].
Qed.

Lemma sched_step_heap_le cf t :
  config_inv zero cf → heap_le (heap cf.1) (heap (sched_step zero cf t).1).
Proof.
  intros (I1 & I2 & _). unfold sched_step.
  destruct (cf.2 !! t) as [th|] eqn:Hth; [|apply heap_le_refl].
  destruct (thread_step zero t cf.1 th) as [[w' th']|] eqn:Hstep;
    [|apply heap_le_refl].
  destruct (I1 t th Hth) as [Hinv _]. simpl.
  unfold thread_step in Hstep. unfold thread_inv in Hinv.
  destruct (t_pc th) as [| |r|rest result|r].
  - destruct (lockedRegister zero cf.1 (t_keys th)) as [[w1 ents] miss] eqn:Hreg.
    simplify_eq. apply lockedRegister_eq in Hreg as (m' & h' & Hreg & ->).
    apply register_spec in Hreg as (es & ms & news & _ & _ & -> & _).
    + apply heap_le_app.
    + intros k l Hk. destruct (I2 k l Hk) as [Hl _]. unfold keyOf. by rewrite Hl.
  - case_bool_decide; unfold callLoader in Hstep; simplify_eq; apply heap_le_refl.
  - simplify_eq. destruct Hinv as (Hok & Hpb & _).
    apply fanOut_heap_le; [apply Hok|].
    intros l Hl. destruct (Hpb l Hl) as (k & ? & _). eauto.
  - destruct rest as [|e rest]; [simplify_eq; apply heap_le_refl|].
    destruct (heap cf.1 !! e) as [en|]; [|done].
    destruct (completed en); [|done].
    destruct (collect1 en result); simplify_eq; apply heap_le_refl.
  - done.
Qed.

Lemma run_heap_le sched : ∀ cf,
  config_inv zero cf → heap_le (heap cf.1) (heap (run zero sched cf).1).
Proof.
  induction sched as [|t sched IH]; intros cf Hinv; [apply heap_le_refl|].
  simpl. eapply heap_le_trans; [by apply sched_step_heap_le|].
  apply IH. by apply config_inv_sched_step.
Qed.

(** A pending entry is as the first critical section made it, and the
    registry resolves its key to it. *)
Lemma pending_entry cf l en :
  config_inv zero cf → heap cf.1 !! l = Some en → wg en ≠ 0 →
  en = new_ent zero (key en) ∧
  (reflexive (key en) = true → registry cf.1 !! key en = Some l).
Proof.
  intros (I1 & _ & _ & I4 & _) Hl Hz.
  destruct (I4 l en Hl) as [?|(t & th & Hth & Hfl & Hm)]; [done|].
  destruct (I1 t th Hth) as [Hinv _]. unfold thread_inv, inflight in *.
  assert (Hpb : pending_batch zero cf.1 th).
  { destruct (t_pc th); try done; apply Hinv. }
  destruct (Hpb l Hm) as (k & Hk & Hr). rewrite Hl in Hk.
  injection Hk as ->. done.
Qed.

Lemma pending_registered cf l en :
  config_inv zero cf → heap cf.1 !! l = Some en → wg en ≠ 0 →
  reflexive (key en) = true →
  registry cf.1 !! key en = Some l.
Proof. intros Hinv Hl Hz. by apply (pending_entry cf l en Hinv Hl Hz). Qed.

(** The counter of an entry's WaitGroup is 1 while the entry is pending and 0
    once it is completed: [Done] is called exactly once on it, so the counter
    never goes negative (which would make [Done] panic). *)
Lemma wg_zero_or_one cf l en :
  config_inv zero cf → heap cf.1 !! l = Some en → wg en = 0 ∨ wg en = 1.
Proof.
  intros Hinv Hl. destruct (decide (wg en = 0)) as [?|Hz]; [by left|right].
  destruct (pending_entry cf l en Hinv Hl Hz) as [-> _]. done.
Qed.

Lemma returned_not_inflight th : returned th = true → inflight th = false.
Proof. unfold returned, inflight. by destruct (t_pc th). Qed.

Lemma all_returned_registry cf :
  config_inv zero cf →
  (∀ t th, cf.2 !! t = Some th → returned th = true) →
  ∀ k, registry cf.1 !! k = None.
Proof.
  intros (_ & I2 & _) Hret k.
  destruct (registry cf.1 !! k) as [l|] eqn:Hk; [|done].
  destruct (I2 k l Hk) as (_ & t & th & Hth & Hfl & _).
  rewrite (returned_not_inflight th) in Hfl; [done|]. by eapply Hret.
Qed.

Lemma inflight_inv w th :
  thread_inv zero w th → inflight th = true →
  locals_ok (heap w) th ∧ pending_batch zero w th.
Proof. unfold thread_inv, inflight. destruct (t_pc th); try done; intuition. Qed.

Lemma register_step_hit w th w1 ents miss k l :
  (∀ k l, registry w !! k = Some l → keyOf (heap w) l = Some k) →
  lockedRegister zero w (t_keys th) = (w1, ents, miss) →
  k ∈ t_keys th → registry w !! k = Some l → l ∈ ents.
Proof.
  intros Hwf Hreg Hin Hk. apply lockedRegister_eq in Hreg as (m' & h' & Hreg & ->).
  apply register_spec in Hreg
    as (es & ms & news & -> & -> & -> & HF & Hpres & _); [|done].
  apply list_elem_of_lookup in Hin as [i Hi].
  destruct (Forall2_lookup_r _ _ _ _ _ HF Hi) as (l' & Hl' & _ & Hm').
  specialize (Hm' (gomap_lookup_reflexive _ _ _ Hk)).
  rewrite (Hpres k l Hk) in Hm'. simplify_eq. simpl.
  by eapply list_elem_of_lookup_2.
Qed.

(** What a returned mapping holds at the key of an entry the call
    resolved: the entry's value, or nothing when the entry carries the
    not-found marker. *)
Lemma result_at_entry h th res l en :
  locals_ok h th → collect h (t_ents th) ∅ = Some (Some res, None) →
  l ∈ t_ents th → h !! l = Some en →
  (err en = None → reflexive (key en) = true) →
  res !! key en = match err en with None => Some (val en) | Some _ => None end.
Proof.
  intros Hok Hc Hl Hh Hrk. pose proof Hok as (_ & _ & Hinj & _).
  assert (Hsame : reflexive (key en) = true →
            ∀ l', l' ∈ t_ents th → keyOf h l' = Some (key en) → l' = l).
  { intros Hr l' Hl' Hk'. eapply Hinj; eauto. unfold keyOf. by rewrite Hh. }
  destruct (err en) as [er|] eqn:He.
  - destruct (res !! key en) as [v|] eqn:Hv; [|done]. exfalso.
    destruct (collect_lookup_inv _ _ _ _ _ _ Hc Hv)
      as [Hemp|(l' & en' & Hl' & Hh' & Hk' & _ & He')].
    { by rewrite gomap_lookup_empty in Hemp. }
    rewrite (Hsame (gomap_lookup_reflexive _ _ _ Hv) l') in Hh'; [congruence|done|].
    unfold keyOf. rewrite Hh'. simpl. by f_equal.
  - eapply collect_lookup; eauto.
Qed.

(** *** What a call keeps from one step to the next *)

Lemma thread_step_args t w th w' th' :
  thread_step zero t w th = Some (w', th') →
  t_ctx th' = t_ctx th ∧ t_keys th' = t_keys th ∧ t_load th' = t_load th ∧
  (t_pc th ≠ PStart →
     t_ents th' = t_ents th ∧ t_miss th' = t_miss th ∧ t_pc th' ≠ PStart).
Proof.
  unfold thread_step, callLoader.
  destruct (t_pc th) as [| |r|[|e rest] result|r] eqn:Hpc.
  - destruct (lockedRegister zero w (t_keys th)) as [[w1 ents] miss].
    intros [= <- <-]. simpl. by split_and!.
  - case_bool_decide; intros [= <- <-]; simpl; by split_and!.
  - intros [= <- <-]; simpl; by split_and!.
  - intros [= <- <-]; simpl; by split_and!.
  - destruct (heap w !! e) as [en|]; [|done].
    destruct (completed en); [|done].
    destruct (collect1 en result); intros [= <- <-]; simpl; by split_and!.
  - done.
Qed.

Lemma sched_step_args cf t t' th' :
  (sched_step zero cf t).2 !! t' = Some th' →
  ∃ th, cf.2 !! t' = Some th ∧
    t_ctx th' = t_ctx th ∧ t_keys th' = t_keys th ∧ t_load th' = t_load th ∧
    (t_pc th ≠ PStart →
       t_ents th' = t_ents th ∧ t_miss th' = t_miss th ∧ t_pc th' ≠ PStart).
Proof.
  unfold sched_step. destruct (cf.2 !! t) as [th|] eqn:Ht.
  - destruct (thread_step zero t cf.1 th) as [[w1 th1]|] eqn:Hs; simpl.
    + destruct (decide (t' = t)) as [->|Hne].
      * rewrite list_lookup_insert_eq by (by eapply lookup_lt_Some).
        intros [= <-]. exists th. split; [done|]. by eapply thread_step_args.
      * rewrite list_lookup_insert_ne by done. intros Ht'. exists th'.
        by split_and!.
    + intros Ht'. exists th'. by split_and!.
  - intros Ht'. exists th'. by split_and!.
Qed.

Lemma run_args sched : ∀ cf t th',
  (run zero sched cf).2 !! t = Some th' →
  ∃ th, cf.2 !! t = Some th ∧
    t_ctx th' = t_ctx th ∧ t_keys th' = t_keys th ∧ t_load th' = t_load th ∧
    (t_pc th ≠ PStart →
       t_ents th' = t_ents th ∧ t_miss th' = t_miss th ∧ t_pc th' ≠ PStart).
Proof.
  induction sched as [|t0 sched IH]; intros cf t th' Hth'.
  - exists th'. by split_and!.
  - change (run zero (t0 :: sched) cf) with (run zero sched (sched_step zero cf t0))
      in Hth'.
    apply IH in Hth' as (th1 & H1 & Hc1 & Hk1 & Hl1 & Hloc1).
    apply sched_step_args in H1 as (th & H0 & Hc0 & Hk0 & Hl0 & Hloc0).
    exists th. split_and!; try congruence.
    intros Hpc. destruct (Hloc0 Hpc) as (? & ? & Hpc1).
    destruct (Hloc1 Hpc1) as (? & ? & ?). split_and!; congruence.
Qed.

Lemma run_call_args cs sched t th :
  (run zero sched (init cs)).2 !! t = Some th →
  cs !! t = Some (t_ctx th, t_keys th, t_load th).
Proof.
  intros Hth. apply run_args in Hth as (th0 & H0 & Hc & Hk & Hl & _).
  unfold init in H0. simpl in H0. rewrite list_lookup_fmap in H0.
  destruct (cs !! t) as [[[ctx keys] load]|]; [|done].
  simpl in H0. injection H0 as <-. simpl in *. by rewrite Hc, Hk, Hl.
Qed.

(** *** Completed entries *)

Lemma completed_entry_outcome cf l en :
  config_inv zero cf → heap cf.1 !! l = Some en → wg en = 0 →
  ∃ t th, cf.2 !! t = Some th ∧ l ∈ t_miss th ∧ settled th = true ∧
          en = outcome zero (loaded (heap cf.1) th) (key en).
Proof.
  intros Hinv Hl Hwg.
  destruct Hinv as (I1 & I2 & I3 & I4 & I5 & I6).
  destruct (I6 l) as (t & th & Ht & Hm); [by eapply lookup_lt_Some|].
  destruct (I1 t th Ht) as [Hth _].
  exists t, th. split; [done|]. split; [done|].
  destruct (settled th) eqn:Hs.
  - split; [done|].
    pose proof (settled_miss_entry cf.1 th l (key en) Hth Hs Hm) as He.
    rewrite Hl in He. unfold keyOf in He. rewrite Hl in He.
    specialize (He eq_refl). by injection He.
  - exfalso. unfold settled in Hs. destruct (t_pc th) eqn:Hpc; try done.
    + unfold thread_inv in Hth. rewrite Hpc in Hth. destruct Hth as [_ Hnil].
      rewrite Hnil in Hm. by apply elem_of_nil in Hm.
    + assert (Hin : inflight th = true) by (unfold inflight; by rewrite Hpc).
      destruct (inflight_inv cf.1 th Hth Hin) as [_ Hp].
      destruct (Hp l Hm) as (k & Hk & _). rewrite Hl in Hk.
      injection Hk as ->. simpl in Hwg. lia.
    + assert (Hin : inflight th = true) by (unfold inflight; by rewrite Hpc).
      destruct (inflight_inv cf.1 th Hth Hin) as [_ Hp].
      destruct (Hp l Hm) as (k & Hk & _). rewrite Hl in Hk.
      injection Hk as ->. simpl in Hwg. lia.
Qed.

Lemma outcome_value_reflexive r k :
  err (outcome zero r k) = None → reflexive k = true.
Proof.
  unfold outcome. destruct r as [vals [er|]]; simpl; [done|].
  destruct (vals ≫= (.!! k)) as [v|] eqn:Hv; simpl; [|done].
  intros _. destruct vals as [vm|]; simpl in Hv; [|done].
  by eapply gomap_lookup_reflexive.
Qed.

(** A completed entry that carries a value has a key that is equal to
    itself: the value was found under that key in a loader's map. *)
Lemma value_entry_reflexive cf l en :
  config_inv zero cf → heap cf.1 !! l = Some en → wg en = 0 → err en = None →
  reflexive (key en) = true.
Proof.
  intros Hinv Hl Hwg Herr.
  destruct (completed_entry_outcome cf l en Hinv Hl Hwg) as (t & th & _ & _ & _ & He).
  rewrite He in Herr. by apply outcome_value_reflexive in Herr.
Qed.

(** The key of every entry is one of the keys of the call that created
    it. *)
Lemma heap_key_in_call cf l en :
  config_inv zero cf → heap cf.1 !! l = Some en →
  ∃ t th, cf.2 !! t = Some th ∧ l ∈ t_miss th ∧ key en ∈ t_keys th.
Proof.
  intros (I1 & _ & _ & _ & _ & I6) Hl.
  destruct (I6 l) as (t & th & Ht & Hm); [by eapply lookup_lt_Some|].
  exists t, th. split; [done|]. split; [done|].
  destruct (I1 t th Ht) as [Hth _].
  destruct (thread_inv_locals _ _ Hth) as [Hpc|Hok].
  - unfold thread_inv in Hth. rewrite Hpc in Hth. destruct Hth as [_ Hnil].
    rewrite Hnil in Hm. by apply elem_of_nil in Hm.
  - pose proof Hok as (_ & Hsub & _).
    destruct (locals_ok_ent_key _ _ _ Hok (Hsub l Hm)) as (k & Hk & Hin).
    unfold keyOf in Hk. rewrite Hl in Hk. simpl in Hk. by injection Hk as ->.
Qed.

(** *** The two parts of the registry *)

Lemma register_wf keys : ∀ m h ents miss m' h' ents' miss',
  register zero keys m h ents miss = (m', h', ents', miss') →
  (∀ k l, live m !! k = Some l → reflexive k = true) →
  (∀ k l, (k, l) ∈ dead m → reflexive k = false ∧ keyOf h l = Some k) →
  (∀ k l, live m' !! k = Some l → reflexive k = true) ∧
  (∀ k l, (k, l) ∈ dead m' → reflexive k = false ∧ keyOf h' l = Some k).
Proof.
  induction keys as [|k keys IH]; intros m h ents miss m' h' ents' miss' Hr Hl Hd.
  - simpl in Hr. by simplify_eq.
  - simpl in Hr. destruct (m !! k) as [e|] eqn:Hk; [by eapply IH|].
    eapply IH; [exact Hr|..]; rewrite gomap_insert_unfold;
      destruct (reflexive k) eqn:Hrk; simpl.
    + intros k' l. rewrite lookup_insert. case_decide; [by subst|]. apply Hl.
    + apply Hl.
    + intros k' l Hin. destruct (Hd k' l Hin) as [? ?].
      split; [done|]. by apply keyOf_app.
    + intros k' l [Hin|Hin]%elem_of_app.
      * destruct (Hd k' l Hin) as [? ?]. split; [done|]. by apply keyOf_app.
      * apply list_elem_of_singleton in Hin. injection Hin as -> ->.
        split; [done|]. unfold keyOf.
        by rewrite lookup_app_r, Nat.sub_diag by lia.
Qed.

Lemma registry_wf_ext w w' :
  g_m w' = g_m w → heap w' = heap w → registry_wf w → registry_wf w'.
Proof.
  unfold registry_wf, registry. intros -> ->. done.
Qed.

Lemma registry_wf_fan1 r w e : registry_wf w → registry_wf (fan1 r w e).
Proof.
  intros [Hl Hd]. unfold registry_wf.
  assert (Hsub : (∀ k l, live (registry (fan1 r w e)) !! k = Some l →
                         live (registry w) !! k = Some l) ∧
                 dead (registry (fan1 r w e)) = dead (registry w)).
  { unfold fan1, setFromVals, setCallErr, setCallResult.
    assert (Hdel : ∀ k0 h cs,
      (∀ k l, live (registry (MkWorld (delete k0 <$> g_m w) h cs)) !! k = Some l →
              live (registry w) !! k = Some l) ∧
      dead (registry (MkWorld (delete k0 <$> g_m w) h cs)) = dead (registry w)).
    { intros k0 h cs. rewrite registry_delete, gomap_delete_unfold.
      destruct (reflexive k0); simpl; [|done]. split; [|done].
      intros k l Hk. apply lookup_delete_Some in Hk. tauto. }
    destruct r as [vals [er|]]; simpl; destruct (heap w !! e) as [en|]; try done.
    destruct (vals ≫= (.!! key en)); done. }
  destruct Hsub as [Hs1 Hs2]. split.
  - intros k l Hk. eapply Hl, Hs1, Hk.
  - intros k l. rewrite Hs2. intros Hin. destruct (Hd k l Hin) as [? ?].
    split; [done|]. by rewrite keyOf_fan1.
Qed.

Lemma registry_wf_fanOut r ents : ∀ w,
  registry_wf w → registry_wf (fanOut w ents r).
Proof.
  induction ents as [|e ents IH]; intros w Hwf; rewrite fanOut_foldl; [done|].
  simpl. rewrite <- fanOut_foldl. by apply IH, registry_wf_fan1.
Qed.

Lemma registry_wf_sched_step cf t :
  registry_wf cf.1 → registry_wf (sched_step zero cf t).1.
Proof.
  intros Hwf. unfold sched_step. destruct (cf.2 !! t) as [th|]; [|done].
  destruct (thread_step zero t cf.1 th) as [[w' th']|] eqn:Hs; [|done].
  simpl. unfold thread_step, callLoader in Hs.
  destruct (t_pc th) as [| |r|[|e rest] result|r].
  - destruct (lockedRegister zero cf.1 (t_keys th)) as [[w1 ents] miss] eqn:Hreg.
    injection Hs as <- <-.
    apply lockedRegister_eq in Hreg as (m' & h' & Hreg & ->).
    destruct Hwf as [Hl Hd]. by eapply register_wf.
  - case_bool_decide; injection Hs as <- <-; by eapply registry_wf_ext.
  - injection Hs as <- <-. by apply registry_wf_fanOut.
  - by injection Hs as <- <-.
  - destruct (heap cf.1 !! e) as [en|]; [|done].
    destruct (completed en); [|done].
    by destruct (collect1 en result); injection Hs as <- <-.
  - done.
Qed.

Lemma registry_wf_run sched : ∀ cf,
  registry_wf cf.1 → registry_wf (run zero sched cf).1.
Proof.
  induction sched as [|t sched IH]; intros cf Hwf; [done|].
  simpl. by apply IH, registry_wf_sched_step.
Qed.

Lemma reachable_registry_wf (cs : list (Ctx * list K * Loader)) sched :
  registry_wf (run zero sched (init cs)).1.
Proof.
  apply registry_wf_run. split; simpl.
  - intros k l Hk. by rewrite lookup_empty in Hk.
  - intros k l Hin. by apply elem_of_nil in Hin.
Qed.

(** Once every call has returned, the registry finds no key; what is left
    in it is the dead bindings. *)
Lemma all_returned_live cf :
  config_inv zero cf → registry_wf cf.1 →
  (∀ t th, cf.2 !! t = Some th → returned th = true) →
  live (registry cf.1) = ∅.
Proof.
  intros Hinv [Hl _] Hret. apply map_eq. intros k. rewrite lookup_empty.
  destruct (live (registry cf.1) !! k) as [l|] eqn:Hk; [|done].
  pose proof (Hl k l Hk) as Hrk.
  rewrite <- gomap_lookup_live in Hk by done.
  by rewrite (all_returned_registry cf Hinv Hret k) in Hk.
Qed.

(** What the mapping returned by a call holds at the key of an entry the
    call resolved. *)
Lemma returned_result_at_entry cf t th res l en :
  config_inv zero cf → cf.2 !! t = Some th →
  t_pc th = PReturned (Some res, None) →
  l ∈ t_ents th → heap cf.1 !! l = Some en →
  res !! key en = match err en with None => Some (val en) | Some _ => None end.
Proof.
  intros Hinv Ht Hpc Hl Hen. pose proof Hinv as (I1 & _).
  destruct (I1 t th Ht) as [Hth _].
  destruct (returned_inv _ _ _ Hth Hpc) as (Hok & _ & Hc).
  eapply result_at_entry; eauto. intros Herr.
  eapply value_entry_reflexive; eauto.
  destruct (collect_Some_inv _ _ _ _ Hc)
    as [(res' & _ & Hall)|(? & ? & ? & ? & ? & _ & ? & _)]; [|done].
  rewrite Forall_forall in Hall. destruct (Hall l Hl) as (en' & Hen' & Hp & _).
  congruence.
Qed.

(** When every key passed to [Do] is equal to itself, so is the key of
    every entry, and the registry holds no dead binding. *)
Lemma heap_key_reflexive (cs : list (Ctx * list K * Loader)) sched l en :
  (∀ a, a ∈ cs → ∀ k, k ∈ a.1.2 → reflexive k = true) →
  heap (run zero sched (init cs)).1 !! l = Some en →
  reflexive (key en) = true.
Proof.
  intros Hkeys Hl.
  destruct (heap_key_in_call _ l en (reachable_inv cs sched) Hl)
    as (t & th & Ht & _ & Hin).
  apply run_call_args in Ht.
  apply (Hkeys (t_ctx th, t_keys th, t_load th)); [|done].
  by eapply list_elem_of_lookup_2.
Qed.

Lemma reachable_no_dead (cs : list (Ctx * list K * Loader)) sched :
  (∀ a, a ∈ cs → ∀ k, k ∈ a.1.2 → reflexive k = true) →
  dead (registry (run zero sched (init cs)).1) = [].
Proof.
  intros Hkeys. destruct (reachable_registry_wf cs sched) as [_ Hd].
  destruct (dead (registry (run zero sched (init cs)).1)) as [|[k l] ds]; [done|].
  destruct (Hd k l) as [Hrk Hk]; [left|].
  apply keyOf_Some in Hk as (en & Hen & <-).
  by rewrite (heap_key_reflexive cs sched l en Hkeys Hen) in Hrk.
Qed.

Lemma all_returned_empty (cs : list (Ctx * list K * Loader)) sched :
  (∀ a, a ∈ cs → ∀ k, k ∈ a.1.2 → reflexive k = true) →
  (∀ t th, (run zero sched (init cs)).2 !! t = Some th → returned th = true) →
  registry (run zero sched (init cs)).1 = ∅.
Proof.
  intros Hkeys Hret.
  pose proof (all_returned_live _ (reachable_inv cs sched)
                (reachable_registry_wf cs sched) Hret) as Hl.
  pose proof (reachable_no_dead cs sched Hkeys) as Hd.
  destruct (registry (run zero sched (init cs)).1) as [lv dd].
  simpl in *. by subst.
Qed.

End Protocol.

(** * The properties of the specification *)

Section Specification.
Context {K : Type} `{Countable K} `{!Comparable K} {V : Type} (zero : V) {Ctx : Type}.

Abbreviation ent := (@ent K V).
Abbreviation World := (@World K _ _ V).
Abbreviation Loader := (@Loader K _ _ V Ctx).
Abbreviation thread := (@thread K _ _ V Ctx).
Abbreviation Config := (@Config K _ _ V Ctx).

Implicit Types (m : gomap K nat) (h : list ent) (w : World) (l e : nat) (k : K)
  (th : thread) (cf : Config) (result res : gomap K V) (en : ent)
  (cs : list (Ctx * list K * Loader)) (sched : list nat).

(** C7. A call of [Do] with an empty key list returns an empty result
    mapping and a nil error without invoking the loader: run alone from any
    state of the group it returns just that and adds no loader invocation,
    and among concurrent calls it has made no loader invocation at any
    point and, once returned, has returned the empty mapping and nil. *)
Theorem C7_empty_keys :
  (∀ me w ctx (load : Loader),
     Do zero me w ctx [] load =
       (MkWorld (Some (registry w)) (heap w) (calls w), Some (Some ∅, None))) ∧
  (∀ cs sched t th,
     (run zero sched (init cs)).2 !! t = Some th → t_keys th = [] →
     calls_of t (run zero sched (init cs)).1 = [] ∧
     ∀ r, t_pc th = PReturned r → r = (Some ∅, None)).
Proof.
  split.
  - intros me w ctx load. unfold Do, lockedRegister, registry. simpl.
    by destruct (g_m w).
  - intros cs sched t th Hth Hkeys.
    destruct (reachable_thread zero cs sched t th Hth) as [Hinv Hcalls].
    set (cf := run zero sched (init cs)) in *.
    assert (Hm : t_miss th = []).
    { destruct (thread_inv_locals zero _ _ Hinv) as [Hs|Hok].
      - unfold thread_inv in Hinv. rewrite Hs in Hinv. by destruct Hinv.
      - pose proof (locals_ok_length _ _ Hok) as Hlen. rewrite Hkeys in Hlen.
        destruct Hok as (_ & Hsub & _). destruct (t_ents th); [|done].
        destruct (t_miss th) as [|l ms]; [done|].
        specialize (Hsub l). rewrite elem_of_nil in Hsub. exfalso.
        apply Hsub. left. }
    split.
    + rewrite Hcalls. unfold expected_calls. rewrite Hm.
      by destruct (t_pc th).
    + intros r Hpc. apply (returned_inv zero _ _ _ Hinv) in Hpc as (Hok & _ & Hc).
      pose proof (locals_ok_length _ _ Hok) as Hlen. rewrite Hkeys in Hlen.
      destruct (t_ents th); [|done]. simpl in Hc. by simplify_eq.
Qed.

(** C8. For every call of [Do], the loader invocations it has made are
    none before it reaches [doLoad], and from then on exactly one when it
    registered misses and none when it did not; every invocation it makes
    is passed exactly the keys of its misses, which is never the empty
    list, holds no two keys that are [==] and has one key per miss; and the
    misses are the keys of the input that the registry did not find when
    the call took the lock. *)
Theorem C8_loader_invocations cs sched t th :
  (run zero sched (init cs)).2 !! t = Some th →
  let cf := run zero sched (init cs) in
  let ks := entKeys (heap cf.1) (t_miss th) in
  (settled th = true →
     calls_of t cf.1 = if decide (t_miss th = []) then [] else [ks]) ∧
  (∀ ks', ks' ∈ calls_of t cf.1 → ks' = ks ∧ ks' ≠ []) ∧
  (length (calls_of t cf.1) ≤ 1)%nat ∧
  distinct_keys ks ∧ length ks = length (t_miss th) ∧
  (t_pc th = PStart →
     ∀ th', (sched_step zero cf t).2 !! t = Some th' →
       ∀ k, k ∈ entKeys (heap (sched_step zero cf t).1) (t_miss th') ↔
            k ∈ t_keys th ∧ registry cf.1 !! k = None).
Proof.
  intros Hth cf ks.
  destruct (reachable_thread zero cs sched t th Hth) as [Hinv Hcalls].
  fold cf in Hinv, Hcalls. change (cf.2 !! t = Some th) in Hth.
  assert (Hks : distinct_keys ks ∧ length ks = length (t_miss th)).
  { destruct (thread_inv_locals zero _ _ Hinv) as [Hs|Hok].
    - unfold thread_inv in Hinv. rewrite Hs in Hinv. destruct Hinv as [_ Hm].
      unfold ks. rewrite Hm. split; [|done]. by intros i j k Hi.
    - destruct (locals_ok_entKeys _ _ Hok) as (? & ? & _). done. }
  assert (Hexp : expected_calls (heap cf.1) th = [] ∨
                 (expected_calls (heap cf.1) th = [ks] ∧ t_miss th ≠ [])).
  { unfold expected_calls. destruct (t_pc th); auto; case_bool_decide; auto;
      right; (split; [done|]); intros Hnil; rewrite Hnil in *; simpl in *; lia. }
  split_and!; try apply Hks.
  - intros Hs. rewrite Hcalls. unfold expected_calls, settled in *.
    destruct (t_pc th); try done; case_bool_decide; case_decide; try done.
    + rewrite H1 in H0. simpl in H0. lia.
    + destruct (t_miss th); [done|simpl in *; lia].
    + rewrite H1 in H0. simpl in H0. lia.
    + destruct (t_miss th); [done|simpl in *; lia].
  - intros ks'. rewrite Hcalls. destruct Hexp as [->|[-> Hne]].
    + intros Hin. by apply elem_of_nil in Hin.
    + intros ->%list_elem_of_singleton. split; [done|].
      intros Hnil. destruct Hks as [_ Hlen]. rewrite Hnil in Hlen.
      destruct (t_miss th); done.
  - rewrite Hcalls. destruct Hexp as [->|[-> _]]; simpl; lia.
  - intros Hpc th' Hth'. 
    pose proof (reachable_inv zero cs sched) as (_ & I2 & _). fold cf in I2.
    destruct (lockedRegister zero cf.1 (t_keys th)) as [[w1 ents] miss] eqn:Hreg.
    assert (Hstep : thread_step zero t cf.1 th = Some (w1,
              MkThread (t_ctx th) (t_keys th) (t_load th) ents miss PRegistered)).
    { unfold thread_step. by rewrite Hpc, Hreg. }
    rewrite (sched_step_enabled zero _ _ _ _ _ Hth Hstep) in *.
    simpl in Hth'. rewrite list_lookup_insert_eq in Hth'
      by by eapply lookup_lt_Some.
    simplify_eq. simpl. intros k. eapply register_step_miss_keys; [|done].
    intros k' l Hk'. destruct (I2 k' l Hk') as [Hl _]. unfold keyOf.
    by rewrite Hl.
Qed.


(** C4. When the loader of a call of [Do] succeeds and its mapping has no
    entry for a key it was passed, the call can return, and a call that has
    returned has no entry for that key in its result mapping; an error it
    returns is never the not-found marker but the failure of an entry that
    another call registered; and when every entry it resolved is one of its
    own misses it returns a mapping and a nil error. *)
Theorem C4_omitted_key cs sched t th vals k :
  (run zero sched (init cs)).2 !! t = Some th →
  loaded (heap (run zero sched (init cs)).1) th = (vals, None) →
  k ∈ entKeys (heap (run zero sched (init cs)).1) (t_miss th) →
  vals ≫= (.!! k) = None →
  (∃ sched' th' r,
     (run zero (sched ++ sched') (init cs)).2 !! t = Some th' ∧
     t_pc th' = PReturned r) ∧
  ∀ r, t_pc th = PReturned r →
    (∀ res, r.1 = Some res → res !! k = None) ∧
    (∀ er, r.2 = Some er →
       errors_Is er errResultNotFound = false ∧
       ∃ l en, l ∈ t_ents th ∧ (l ∉ t_miss th) ∧
         heap (run zero sched (init cs)).1 !! l = Some en ∧ err en = Some er) ∧
    ((∀ l, l ∈ t_ents th → l ∈ t_miss th) → ∃ res, r = (Some res, None)).
Proof.
  intros Hth Hload Hk Hv. split; [by eapply call_can_return|]. intros r Hpc.
  destruct (reachable_thread zero cs sched t th Hth) as [Hinv _].
  set (cf := run zero sched (init cs)) in *.
  assert (Hs : settled th = true) by (unfold settled; by rewrite Hpc).
  apply (returned_inv zero _ _ _ Hinv) in Hpc as (Hok & _ & Hc).
  apply elem_of_entKeys in Hk as (l & Hl & Hkl).
  pose proof (settled_miss_entry zero _ _ _ _ Hinv Hs Hl Hkl) as Hen.
  rewrite Hload, outcome_success, Hv in Hen.
  assert (Hfail : ∀ er, r.2 = Some er →
    errors_Is er errResultNotFound = false ∧
    ∃ l en, l ∈ t_ents th ∧ (l ∉ t_miss th) ∧ heap cf.1 !! l = Some en ∧
            err en = Some er).
  { intros er Her.
    apply collect_Some_inv in Hc as [(res & -> & Hall)|
      (pre & l1 & post & en1 & er1 & Hents & -> & Hl1 & Hf1 & Hall)]; [done|].
    simpl in Her. simplify_eq. pose proof Hf1 as (_ & He1 & Hi1).
    split; [done|]. exists l1, en1. split_and!; auto.
    - rewrite Hents. apply elem_of_app. right. left.
    - intros Hm. destruct (locals_ok_miss_valid _ _ _ Hok Hm) as [en' Hen'].
      assert (Hk1 : keyOf (heap cf.1) l1 = Some (key en1)).
      { unfold keyOf. by rewrite Hl1. }
      pose proof (settled_miss_entry zero _ _ _ _ Hinv Hs Hm Hk1) as Ho.
      rewrite Hload, Hl1 in Ho. simplify_eq.
      eapply passes_not_fails; [|exact Hf1]. rewrite Ho.
      apply outcome_success_passes. }
  split_and!; [|done|].
  - intros res Hres.
    destruct (res !! k) as [v|] eqn:Hrk; [|done]. exfalso.
    apply collect_Some_inv in Hc as Hcases.
    destruct Hcases as [(res' & -> & Hall)|(? & ? & ? & ? & ? & _ & -> & _)];
      [|done]. simpl in Hres. simplify_eq.
    destruct (collect_lookup_inv _ _ _ _ _ _ Hc Hrk)
      as [Hemp|(l' & en' & Hl' & Hh' & Hk' & _ & He')].
    { by rewrite gomap_lookup_empty in Hemp. }
    assert (l' = l) as ->.
    { destruct Hok as (_ & Hsub & Hinj & _). eapply (Hinj l' l k); auto.
      - unfold keyOf. rewrite Hh'. simpl. by f_equal.
      - by eapply gomap_lookup_reflexive. }
    rewrite Hen in Hh'. injection Hh' as <-. simpl in He'. done.
  - intros Hown. destruct r as [[res|] [er|]].
    + destruct (Hfail er eq_refl) as (_ & l1 & en1 & Hl1 & Hn1 & _).
      by destruct Hn1; auto.
    + eauto.
    + destruct (Hfail er eq_refl) as (_ & l1 & en1 & Hl1 & Hn1 & _).
      by destruct Hn1; auto.
    + apply collect_Some_inv in Hc as [(? & ? & _)|(? & ? & ? & ? & ? & _ & ? & _)];
        done.
Qed.

(** C10. Every call of [Do] can return, and every key of the result mapping
    returned by a call is one of the keys it was called with; and the second
    critical section uses the loader's mapping only at the keys passed to
    the loader: two mappings that agree on those keys have the same effect,
    so entries for other keys are ignored. *)
Theorem C10_result_keys :
  (∀ cs sched t th,
     (run zero sched (init cs)).2 !! t = Some th →
     (∃ sched' th' r,
        (run zero (sched ++ sched') (init cs)).2 !! t = Some th' ∧
        t_pc th' = PReturned r) ∧
     ∀ res k, t_pc th = PReturned (Some res, None) →
              is_Some (res !! k) → k ∈ t_keys th) ∧
  (∀ w ents vals vals' er,
     (∀ k, k ∈ entKeys (heap w) ents → (vals ≫= (.!! k)) = (vals' ≫= (.!! k))) →
     fanOut w ents (vals, er) = fanOut w ents (vals', er)).
Proof.
  split; [|intros; by apply fanOut_ext].
  intros cs sched t th Hth. split; [by eapply call_can_return|].
  intros res k Hpc [v Hv].
  destruct (reachable_thread zero cs sched t th Hth) as [Hinv _].
  apply (returned_inv zero _ _ _ Hinv) in Hpc as (Hok & _ & Hc).
  destruct (collect_lookup_inv _ _ _ _ _ _ Hc Hv)
    as [Hemp|(l & en & Hl & Hh & Hk & _)].
  { by rewrite gomap_lookup_empty in Hemp. }
  destruct (locals_ok_ent_key _ _ _ Hok Hl) as (k' & Hk' & Hin).
  unfold keyOf in Hk'. rewrite Hh in Hk'. simpl in Hk'. by simplify_eq.
Qed.

(** C5, as the code has it.  In every state the group can reach, for every
    key that is equal to itself, the registry maps the key to an entry
    exactly when that entry, for that key, is pending (registered and not
    completed); after [setCallResult] or [setCallErr] the registry does not
    find the entry's key, whatever value or error they store; the second
    critical section of a call leaves every entry of its batch completed and
    its key not found in the registry, whatever the loader returned; once
    all calls have returned the registry finds no key, and it is empty when
    every key the calls were given is equal to itself; and some schedule
    lets all calls return. *)
Theorem C5_registry_pending cs sched :
  let cf := run zero sched (init cs) in
  (∀ k l, reflexive k = true →
     (registry cf.1 !! k = Some l ↔
      ∃ en, heap cf.1 !! l = Some en ∧ key en = k ∧ completed en = false)) ∧
  (∀ w e en v er, heap w !! e = Some en →
     registry (setCallResult w e v) !! key en = None ∧
     registry (setCallErr w e er) !! key en = None) ∧
  (∀ t th r l, cf.2 !! t = Some th → t_pc th = PLoaded r → l ∈ t_miss th →
     ∃ en, heap (sched_step zero cf t).1 !! l = Some en ∧ completed en = true ∧
           registry (sched_step zero cf t).1 !! key en = None) ∧
  ((∀ t th, cf.2 !! t = Some th → returned th = true) →
     (∀ k, registry cf.1 !! k = None) ∧
     ((∀ a, a ∈ cs → ∀ k, k ∈ a.1.2 → reflexive k = true) →
        registry cf.1 = ∅)) ∧
  (∃ sched',
     (∀ t th, (run zero (sched ++ sched') (init cs)).2 !! t = Some th →
              returned th = true) ∧
     (∀ k, registry (run zero (sched ++ sched') (init cs)).1 !! k = None) ∧
     ((∀ a, a ∈ cs → ∀ k, k ∈ a.1.2 → reflexive k = true) →
        registry (run zero (sched ++ sched') (init cs)).1 = ∅)).
Proof.
  intros cf. pose proof (reachable_inv zero cs sched) as Hinv. fold cf in Hinv.
  split_and!.
  - intros k l Hrk. split.
    + intros Hk. destruct Hinv as (_ & I2 & _).
      destruct (I2 k l Hk) as [Hl _]. exists (new_ent zero k). done.
    + intros (en & Hl & <- & Hc). apply (pending_registered zero); [done..| |done].
      unfold completed in Hc. by apply bool_decide_eq_false in Hc.
  - intros w e en v er He. unfold setCallResult, setCallErr. rewrite He.
    rewrite !registry_delete. by rewrite !gomap_lookup_delete_eq.
  - intros t th r l Hth Hpc Hl.
    destruct Hinv as (I1 & _). destruct (I1 t th Hth) as [Hti _].
    unfold thread_inv in Hti. rewrite Hpc in Hti.
    destruct Hti as (Hok & Hpb & _).
    assert (Hstep : thread_step zero t cf.1 th =
              Some (fanOut cf.1 (t_miss th) r, at_pc th (PCollect (t_ents th) ∅))).
    { unfold thread_step. by rewrite Hpc. }
    rewrite (sched_step_enabled zero _ _ _ _ _ Hth Hstep). simpl.
    destruct (fanOut_spec zero r (t_miss th) cf.1) as (_ & _ & _ & Hin & Hreg).
    { apply Hok. }
    { intros l' Hl'. destruct (Hpb l' Hl') as (k & ? & _). eauto. }
    destruct (Hpb l Hl) as (k & Hk & _). exists (outcome zero r k).
    split_and!.
    + by apply Hin.
    + unfold completed. by rewrite outcome_wg.
    + rewrite outcome_key, Hreg. rewrite decide_True; [done|].
      apply elem_of_entKeys. exists l. split; [done|]. unfold keyOf.
      by rewrite Hk.
  - intros Hret. split.
    + by apply (all_returned_registry zero).
    + intros Hkeys. by apply (all_returned_empty zero).
  - destruct (can_return zero cs sched) as [sched' Hret]. exists sched'.
    split_and!; [done| |].
    + apply (all_returned_registry zero); [|done]. apply reachable_inv.
    + intros Hkeys. by apply (all_returned_empty zero).
Qed.

(** C1, as the code has it.  When the loader of a call of [Do] is invoked
    and returns a failure, the second critical section stores that very
    failure in every entry of the batch, completed and out of the registry,
    whatever the failure is.  When [errors.Is] does not take the failure
    for the not-found marker, the call can return, and once returned it has
    returned a nil mapping and an error, which is that failure when every
    entry the call resolved is one of its own misses. *)
Theorem C1_loader_failure cs sched t th vals er :
  (run zero sched (init cs)).2 !! t = Some th →
  settled th = true →
  t_miss th ≠ [] →
  loaded (heap (run zero sched (init cs)).1) th = (vals, Some er) →
  let cf := run zero sched (init cs) in
  calls_of t cf.1 = [entKeys (heap cf.1) (t_miss th)] ∧
  (∀ l, l ∈ t_miss th →
     ∃ k, heap cf.1 !! l = Some (Ent 0 k zero (Some er)) ∧
          registry cf.1 !! k ≠ Some l) ∧
  (errors_Is er errResultNotFound = false →
     (∃ sched' th' r,
        (run zero (sched ++ sched') (init cs)).2 !! t = Some th' ∧
        t_pc th' = PReturned r) ∧
     ∀ r, t_pc th = PReturned r →
       ∃ er', r = (None, Some er') ∧
              ((∀ l, l ∈ t_ents th → l ∈ t_miss th) → er' = er)).
Proof.
  intros Hth Hs Hne Hload cf.
  destruct (reachable_thread zero cs sched t th Hth) as [Hinv Hcalls].
  pose proof (reachable_inv zero cs sched) as Hcinv.
  fold cf in Hinv, Hcalls, Hload, Hcinv.
  destruct (settled_inv zero _ _ Hinv Hs) as [Hok Hcb].
  assert (Hent : ∀ l, l ∈ t_miss th →
            ∃ k, heap cf.1 !! l = Some (Ent 0 k zero (Some er))).
  { intros l Hl. destruct (Hcb l Hl) as [k Hk]. exists k.
    by rewrite Hload, outcome_failure in Hk. }
  split_and!.
  - rewrite Hcalls. unfold expected_calls, settled in *.
    destruct (t_pc th); try done; rewrite bool_decide_true; try done;
      destruct (t_miss th); simpl; done || lia.
  - intros l Hl. destruct (Hent l Hl) as [k Hk]. exists k. split; [done|].
    intros Hr. destruct Hcinv as (_ & I2 & _). destruct (I2 k l Hr) as [Hn _].
    rewrite Hk in Hn. done.
  - intros Hhard. split; [by eapply call_can_return|].
    intros r Hpc. apply (returned_inv zero _ _ _ Hinv) in Hpc as (_ & _ & Hc).
    assert (∃ l0, l0 ∈ t_miss th) as [l0 Hl0].
    { destruct (t_miss th) as [|x ?]; [done|]. exists x. left. }
    destruct (Hent l0 Hl0) as [k0 Hk0].
    apply collect_Some_inv in Hc as [(res & -> & Hall)|
      (pre & l1 & post & en1 & er1 & Hents & -> & Hl1 & Hf1 & Hall)].
    + exfalso. rewrite Forall_forall in Hall.
      destruct (Hall l0) as (en & Hen & Hp); [by apply Hok|].
      rewrite Hk0 in Hen. simplify_eq. destruct Hp as [_ Hp]. simpl in Hp.
      congruence.
    + exists er1. split; [done|]. intros Hown.
      destruct (Hent l1) as [k1 Hk1].
      { apply Hown. rewrite Hents. apply elem_of_app. right. left. }
      rewrite Hk1 in Hl1. simplify_eq. destruct Hf1 as (_ & He & _).
      simpl in He. by simplify_eq.
Qed.

(** C9, as the code has it.  Among concurrent calls of [Do] on one group:
    at any time at most one call is in flight with a given key among those
    it loads, for every key that is equal to itself; a call that takes the
    lock while the registry finds a key resolves the key to the entry
    already in the registry and does not pass the key to its loader;
    every entry belongs to the batch of exactly one call, whose loader is
    invoked at most once, with the entry's key among the keys passed, and
    has been invoked exactly once by the time the entry is completed;
    callers that resolved a key to the same entry and return mappings
    return the same for that key; and a completed entry is never written
    again. *)
Theorem C9_coalescing cs sched :
  let cf := run zero sched (init cs) in
  (∀ t1 t2 th1 th2 k,
     cf.2 !! t1 = Some th1 → cf.2 !! t2 = Some th2 →
     inflight th1 = true → inflight th2 = true →
     k ∈ entKeys (heap cf.1) (t_miss th1) →
     k ∈ entKeys (heap cf.1) (t_miss th2) →
     reflexive k = true → t1 = t2) ∧
  (∀ t th th' k l,
     cf.2 !! t = Some th → t_pc th = PStart → k ∈ t_keys th →
     registry cf.1 !! k = Some l →
     (sched_step zero cf t).2 !! t = Some th' →
     l ∈ t_ents th' ∧ k ∉ entKeys (heap (sched_step zero cf t).1) (t_miss th')) ∧
  (∀ l en, heap cf.1 !! l = Some en →
     ∃ t th, cf.2 !! t = Some th ∧ l ∈ t_miss th ∧
       (∀ t' th', cf.2 !! t' = Some th' → l ∈ t_miss th' → t' = t) ∧
       (length (calls_of t cf.1) ≤ 1)%nat ∧
       (∀ ks, ks ∈ calls_of t cf.1 → key en ∈ ks) ∧
       (completed en = true → ∃ ks, calls_of t cf.1 = [ks])) ∧
  (∀ t1 t2 th1 th2 l k res1 res2,
     cf.2 !! t1 = Some th1 → cf.2 !! t2 = Some th2 →
     l ∈ t_ents th1 → l ∈ t_ents th2 → keyOf (heap cf.1) l = Some k →
     t_pc th1 = PReturned (Some res1, None) →
     t_pc th2 = PReturned (Some res2, None) →
     res1 !! k = res2 !! k) ∧
  (∀ sched', heap_le (heap cf.1) (heap (run zero (sched ++ sched') (init cs)).1)).
Proof.
  intros cf. pose proof (reachable_inv zero cs sched) as Hinv. fold cf in Hinv.
  pose proof Hinv as (I1 & I2 & I3 & I4 & I5 & I6).
  assert (Hwf : ∀ k l, registry cf.1 !! k = Some l → keyOf (heap cf.1) l = Some k).
  { intros k l Hk. destruct (I2 k l Hk) as [Hl _]. unfold keyOf. by rewrite Hl. }
  split_and!.
  - intros t1 t2 th1 th2 k Ht1 Ht2 Hf1 Hf2
      (l1 & Hl1 & Hk1)%elem_of_entKeys (l2 & Hl2 & Hk2)%elem_of_entKeys Hrk.
    destruct (I1 t1 th1 Ht1) as [Hi1 _]. destruct (I1 t2 th2 Ht2) as [Hi2 _].
    destruct (inflight_inv zero _ _ Hi1 Hf1) as [_ Hp1].
    destruct (inflight_inv zero _ _ Hi2 Hf2) as [_ Hp2].
    destruct (Hp1 l1 Hl1) as (k1 & Hh1 & Hr1).
    destruct (Hp2 l2 Hl2) as (k2 & Hh2 & Hr2).
    unfold keyOf in Hk1, Hk2. rewrite Hh1 in Hk1. rewrite Hh2 in Hk2.
    simpl in *. injection Hk1 as ->. injection Hk2 as ->.
    specialize (Hr1 Hrk). specialize (Hr2 Hrk).
    assert (l1 = l2) as -> by congruence. by eapply I3.
  - intros t th th' k l Hth Hpc Hin Hk Hth'.
    destruct (lockedRegister zero cf.1 (t_keys th)) as [[w1 ents] miss] eqn:Hreg.
    assert (Hstep : thread_step zero t cf.1 th = Some (w1,
              MkThread (t_ctx th) (t_keys th) (t_load th) ents miss PRegistered)).
    { unfold thread_step. by rewrite Hpc, Hreg. }
    rewrite (sched_step_enabled zero _ _ _ _ _ Hth Hstep) in *.
    simpl in Hth'. rewrite list_lookup_insert_eq in Hth'
      by by eapply lookup_lt_Some.
    simplify_eq. simpl. split.
    + by eapply register_step_hit.
    + rewrite (register_step_miss_keys zero _ _ _ _ _ k Hwf Hreg).
      intros [_ Hn]. congruence.
  - intros l en Hl. destruct (I6 l) as (t & th & Hth & Hm).
    { by eapply lookup_lt_Some. }
    destruct (I1 t th Hth) as [Hti Hcalls].
    exists t, th. split_and!; auto.
    + intros t' th' Hth' Hm'. by eapply I3.
    + rewrite Hcalls. unfold expected_calls.
      destruct (t_pc th); simpl; try lia; case_bool_decide; simpl; lia.
    + intros ks. rewrite Hcalls. unfold expected_calls.
      assert (Hin : key en ∈ entKeys (heap cf.1) (t_miss th)).
      { apply elem_of_entKeys. exists l. split; [done|]. unfold keyOf.
        by rewrite Hl. }
      destruct (t_pc th); try (intros Hn; by apply elem_of_nil in Hn);
        case_bool_decide; try (intros Hn; by apply elem_of_nil in Hn);
        by intros ->%list_elem_of_singleton.
    + intros Hc. exists (entKeys (heap cf.1) (t_miss th)). rewrite Hcalls.
      assert (Hlen : (0 < length (t_miss th))%nat).
      { destruct (t_miss th); [by apply elem_of_nil in Hm|simpl; lia]. }
      assert (Hnp : ¬ pending_batch zero cf.1 th).
      { intros Hpb. destruct (Hpb l Hm) as (k & Hk & _). rewrite Hl in Hk.
        simplify_eq. }
      unfold expected_calls, thread_inv in *.
      destruct (t_pc th); try by rewrite bool_decide_true.
      * destruct Hti as [_ Hnil]. rewrite Hnil in Hm. by apply elem_of_nil in Hm.
      * destruct Hnp. apply Hti.
  - intros t1 t2 th1 th2 l k res1 res2 Ht1 Ht2 Hl1 Hl2 Hk Hp1 Hp2.
    destruct (I1 t1 th1 Ht1) as [Hi1 _]. destruct (I1 t2 th2 Ht2) as [Hi2 _].
    apply keyOf_Some in Hk as (en & Hen & <-).
    rewrite (returned_result_at_entry zero cf t1 th1 res1 l en Hinv Ht1 Hp1 Hl1 Hen).
    by rewrite (returned_result_at_entry zero cf t2 th2 res2 l en Hinv Ht2 Hp2 Hl2 Hen).
  - intros sched'. rewrite run_app. by apply run_heap_le.
Qed.

(** The general part of C2: when a settled call's loader succeeded and its
    mapping holds a value for a key it was passed, every call that resolved
    the key to the entry of that load can return, and when it has returned a
    mapping it has that value under the key. *)
Lemma loaded_value_returned cs sched t th t' th' l k vals v :
  (run zero sched (init cs)).2 !! t = Some th →
  settled th = true → l ∈ t_miss th →
  keyOf (heap (run zero sched (init cs)).1) l = Some k →
  loaded (heap (run zero sched (init cs)).1) th = (vals, None) →
  vals ≫= (.!! k) = Some v →
  (run zero sched (init cs)).2 !! t' = Some th' →
  l ∈ t_ents th' →
  (∃ sched' th'' r,
     (run zero (sched ++ sched') (init cs)).2 !! t' = Some th'' ∧
     t_pc th'' = PReturned r) ∧
  ∀ res, t_pc th' = PReturned (Some res, None) → res !! k = Some v.
Proof.
  intros Hth Hs Hl Hk Hload Hv Hth' Hl'.
  split; [by eapply call_can_return|]. intros res Hpc.
  destruct (reachable_thread zero cs sched t th Hth) as [Hinv _].
  destruct (reachable_thread zero cs sched t' th' Hth') as [Hinv' _].
  pose proof (settled_miss_entry zero _ _ _ _ Hinv Hs Hl Hk) as Hen.
  rewrite Hload, outcome_success, Hv in Hen.
  by pose proof (returned_result_at_entry zero _ t' th' res l _
                   (reachable_inv zero cs sched) Hth' Hpc Hl' Hen) as Hr.
Qed.

(** The general part of C3: all occurrences in one call of a key that is
    equal to itself resolve to one entry; and when every entry the call
    resolved is one of its own misses, a settled call with a non-empty key
    list has invoked the loader exactly once, with a list of exactly the
    keys it was called with that holds no two keys that are [==] (so no key
    twice, when the keys are equal to themselves), and a mapping it returns
    after a successful load holds, for each key, exactly the value the
    loader returned for it. *)
Lemma duplicates_resolved cs sched t th :
  (run zero sched (init cs)).2 !! t = Some th →
  t_pc th ≠ PStart →
  let cf := run zero sched (init cs) in
  let ks := entKeys (heap cf.1) (t_miss th) in
  (∀ i j k, t_keys th !! i = Some k → t_keys th !! j = Some k →
     is_Some (t_ents th !! i) ∧
     (reflexive k = true → t_ents th !! i = t_ents th !! j)) ∧
  ((∀ l, l ∈ t_ents th → l ∈ t_miss th) → t_keys th ≠ [] → settled th = true →
     calls_of t cf.1 = [ks] ∧ distinct_keys ks ∧
     ((∀ k, k ∈ t_keys th → reflexive k = true) → NoDup ks) ∧
     (∀ k, k ∈ ks ↔ k ∈ t_keys th) ∧
     ∀ res vals, t_pc th = PReturned (Some res, None) →
       loaded (heap cf.1) th = (vals, None) →
       ∀ k v, res !! k = Some v ↔ k ∈ t_keys th ∧ vals ≫= (.!! k) = Some v).
Proof.
  intros Hth Hpc cf ks.
  destruct (reachable_thread zero cs sched t th Hth) as [Hinv Hcalls].
  fold cf in Hinv, Hcalls.
  destruct (thread_inv_locals zero _ _ Hinv) as [?|Hok]; [done|].
  pose proof Hok as (HF & Hsub & Hinj & Hnd).
  split.
  - intros i j k Hi Hj.
    destruct (Forall2_lookup_r _ _ _ _ _ HF Hi) as (li & Hli & Hki).
    destruct (Forall2_lookup_r _ _ _ _ _ HF Hj) as (lj & Hlj & Hkj).
    split; [eauto|]. intros Hrk. rewrite Hli, Hlj. f_equal.
    eapply Hinj; eauto; by eapply list_elem_of_lookup_2.
  - intros Hown Hne Hs.
    destruct (locals_ok_entKeys _ _ Hok) as (Hnd' & Hlen & Hin).
    assert (Hall : ∀ k, k ∈ ks ↔ k ∈ t_keys th).
    { intros k. split; [apply Hin|]. intros Hk.
      destruct (locals_ok_key_ent _ _ _ Hok Hk) as (l & Hl & Hkl).
      apply elem_of_entKeys. eauto. }
    assert (Hmiss : (0 < length (t_miss th))%nat).
    { destruct (t_keys th) as [|k0 ?] eqn:Hk; [done|].
      assert (Hk0 : k0 ∈ ks) by (apply Hall; left).
      unfold ks in Hk0. destruct (t_miss th); [|simpl; lia].
      by apply elem_of_nil in Hk0. }
    split_and!; auto.
    + rewrite Hcalls. unfold expected_calls, settled in *.
      destruct (t_pc th); try done; by rewrite bool_decide_true.
    + intros Hrefl. apply distinct_keys_NoDup; [done|].
      intros k Hk. by apply Hrefl, Hall.
    + intros res vals Hret Hload k v.
      pose proof Hret as Hret'.
      apply (returned_inv zero _ _ _ Hinv) in Hret as (_ & _ & Hc).
      split.
      * intros Hv. destruct (collect_lookup_inv _ _ _ _ _ _ Hc Hv)
          as [Hemp|(l & en & Hl & Hh & Hk & Hval & He)].
        { by rewrite gomap_lookup_empty in Hemp. }
        assert (Hkl : keyOf (heap cf.1) l = Some k).
        { unfold keyOf. rewrite Hh. simpl. by f_equal. }
        destruct (locals_ok_ent_key _ _ _ Hok Hl) as (k' & Hk' & Hkin).
        split; [congruence|].
        pose proof (settled_miss_entry zero _ _ _ _ Hinv Hs (Hown l Hl) Hkl) as Ho.
        rewrite Hload, outcome_success, Hh in Ho.
        destruct (vals ≫= _) as [v'|]; injection Ho as ->; simpl in *;
          [by subst|done].
      * intros [Hk Hv].
        destruct (locals_ok_key_ent _ _ _ Hok Hk) as (l & Hl & Hkl).
        pose proof (settled_miss_entry zero _ _ _ _ Hinv Hs (Hown l Hl) Hkl) as Ho.
        rewrite Hload, outcome_success, Hv in Ho.
        by pose proof (returned_result_at_entry zero cf t th res l _
                         (reachable_inv zero cs sched) Hth Hret' Hl Ho) as Hr.
Qed.

End Specification.

(** C2. When the loader of a call of [Do] succeeds and its mapping holds a
    value for a key it was passed, every call that resolved the key to the
    entry of that load (the loading call itself, and any call that found the
    key in flight) can return, and when it has returned a mapping it has
    that value under the key.  In particular [Do] with keys 1, 2, 3 on a fresh group, with a loader
    returning the mapping 1 to a, 3 to c and a nil error, returns that
    mapping and a nil error. *)
Theorem C2_loaded_value :
  (∀ (K : Type) `{Countable K} `{!Comparable K} (V : Type) (zero : V) (Ctx : Type)
     (cs : list (Ctx * list K * Loader)) sched t th t' th' l k vals v,
     (run zero sched (init cs)).2 !! t = Some th →
     settled th = true → l ∈ t_miss th →
     keyOf (heap (run zero sched (init cs)).1) l = Some k →
     loaded (heap (run zero sched (init cs)).1) th = (vals, None) →
     vals ≫= (.!! k) = Some v →
     (run zero sched (init cs)).2 !! t' = Some th' →
     l ∈ t_ents th' →
     (∃ sched' th'' r,
        (run zero (sched ++ sched') (init cs)).2 !! t' = Some th'' ∧
        t_pc th'' = PReturned r) ∧
     ∀ res, t_pc th' = PReturned (Some res, None) → res !! k = Some v) ∧
  (Do ""%string 0 emptyWorld tt [1; 2; 3] Scenario.load_a_c).2 =
    Some (Some (<[1 := "a"%string]> (<[3 := "c"%string]> ∅)), None).
Proof.
  split.
  - intros K ? ? ? V zero Ctx cs sched t th t' th' l k vals v.
    apply (loaded_value_returned zero).
  - vm_compute. reflexivity.
Qed.

(** C3, as the code has it.  All occurrences in the input of a call of [Do]
    of a key that is equal to itself resolve to one entry.  When every entry
    the call resolved is one it registered itself (no requested key was in
    flight), a call with a non-empty key list that is past [doLoad] has
    invoked the loader exactly once, with a list of exactly the keys of the
    input that holds no two keys that are [==], so no key twice when the
    keys of the input are equal to themselves; and a mapping it returns
    after a successful load holds, for each key of the input, exactly the
    value the loader returned for it.  In particular [Do] with keys 5, 5, 5
    on a fresh group invokes the loader exactly once, with the key list 5,
    and returns the single entry for 5 when the loader returns a value for
    it. *)
Theorem C3_duplicates :
  (∀ (K : Type) `{Countable K} `{!Comparable K} (V : Type) (zero : V) (Ctx : Type)
     (cs : list (Ctx * list K * Loader)) sched t th,
     (run zero sched (init cs)).2 !! t = Some th →
     t_pc th ≠ PStart →
     let cf := run zero sched (init cs) in
     let ks := entKeys (heap cf.1) (t_miss th) in
     (∀ i j k, t_keys th !! i = Some k → t_keys th !! j = Some k →
        is_Some (t_ents th !! i) ∧
        (reflexive k = true → t_ents th !! i = t_ents th !! j)) ∧
     ((∀ l, l ∈ t_ents th → l ∈ t_miss th) → t_keys th ≠ [] → settled th = true →
        calls_of t cf.1 = [ks] ∧ distinct_keys ks ∧
        ((∀ k, k ∈ t_keys th → reflexive k = true) → NoDup ks) ∧
        (∀ k, k ∈ ks ↔ k ∈ t_keys th) ∧
        ∀ res vals, t_pc th = PReturned (Some res, None) →
          loaded (heap cf.1) th = (vals, None) →
          ∀ k v, res !! k = Some v ↔ k ∈ t_keys th ∧ vals ≫= (.!! k) = Some v)) ∧
  (∀ load : Scenario.loader,
     let out := Do ""%string 0 emptyWorld tt [5; 5; 5] load in
     calls out.1 = [(0%nat, [5])] ∧
     ∀ vals v, load tt [5] = (vals, None) → vals ≫= (.!! 5) = Some v →
       out.2 = Some (Some (<[5 := v]> ∅), None)).
Proof.
  split.
  - intros K ? ? ? V zero Ctx cs sched t th. apply (duplicates_resolved zero).
  - intros load out. subst out. unfold Do.
    assert (Hreg : lockedRegister ""%string emptyWorld [5; 5; 5] =
              (MkWorld (Some (<[5 := 0%nat]> ∅)) [new_ent ""%string 5] [],
               [0; 0; 0]%nat, [0%nat])) by (vm_compute; reflexivity).
    rewrite Hreg. rewrite bool_decide_true by (simpl; lia).
    unfold doLoad, callLoader. cbn [heap calls g_m].
    change (entKeys [new_ent ""%string 5] [0%nat]) with [5].
    rewrite fanOut_foldl. cbn [foldl].
    rewrite (fan1_pending ""%string _ _ 0%nat 5) by done.
    cbn [heap calls g_m fst snd]. split; [done|].
    intros vals v Hl Hv. rewrite Hl, outcome_success, Hv.
    cbn. unfold collect1. cbn.
    by rewrite !insert_insert_eq.
Qed.

(** * The properties on the scenarios *)

(** C1 does not hold for every loader error: on a fresh group, with keys
    1, 2 and a loader that is invoked once and returns a failure whose [Is]
    method accepts the not-found marker, [Do] returns an empty mapping and a
    nil error instead of a nil mapping and that failure. *)
Lemma C1_lookalike_swallowed :
  let out := Do ""%string 0 emptyWorld tt [1; 2] Scenario.load_lookalike in
  calls out.1 = [(0%nat, [1; 2])] ∧
  Scenario.load_lookalike tt [1; 2] = (None, Some Scenario.lookalike) ∧
  out.2 = Some (Some ∅, None) ∧
  out.2 ≠ Some (None, Some Scenario.lookalike).
Proof.
  assert (Hout : (Do ""%string 0 emptyWorld tt [1; 2] Scenario.load_lookalike).2
                 = Some (Some ∅, None)) by (vm_compute; reflexivity).
  split_and!; [vm_compute; reflexivity|reflexivity|exact Hout|].
  rewrite Hout. discriminate.
Qed.

(** The spec's scenario for a loader failure, through C1: keys 1, 2 and a
    loader that returns a nil map and the error "backend unavailable". *)
Lemma C1_loader_failure_witness :
  let cf := run ""%string Scenario.failing_sched (init Scenario.failing_cs) in
  let th := Scenario.thread_at cf 0 (tt, [], Scenario.load_unavailable) in
  t_pc th = PReturned (None, Some Scenario.backend_unavailable) ∧
  calls_of 0 cf.1 = [[1; 2]] ∧
  ∀ r, t_pc th = PReturned r →
    ∃ er', r = (None, Some er') ∧
           ((∀ l, l ∈ t_ents th → l ∈ t_miss th) → er' = Scenario.backend_unavailable).
Proof.
  intros cf th.
  destruct (C1_loader_failure ""%string Scenario.failing_cs Scenario.failing_sched
              0 th None Scenario.backend_unavailable)
    as (Hcalls & _ & Hret); try (vm_compute; reflexivity).
  { vm_compute. discriminate. }
  split_and!.
  - vm_compute. reflexivity.
  - exact Hcalls.
  - apply Hret. vm_compute. reflexivity.
Defined.

(** C2 on two overlapping calls: call 0 loads key 5 and call 1, which found 5
    in flight, returns the loaded value. *)
Lemma C2_loaded_value_witness :
  let cf := run ""%string Scenario.overlap_sched (init Scenario.overlap_cs) in
  ∃ res, t_pc (Scenario.thread_at cf 1 (tt, [], Scenario.load_echo))
           = PReturned (Some res, None) ∧
         res !! 5 = Some "val"%string.
Proof.
  intros cf. eexists. split; [vm_compute; reflexivity|].
  eapply (proj1 C2_loaded_value Z _ _ _ string ""%string unit Scenario.overlap_cs
            Scenario.overlap_sched 0%nat _ 1%nat
            (Scenario.thread_at cf 1 (tt, [], Scenario.load_echo)) 0%nat 5 _
            "val"%string);
    try (vm_compute; reflexivity).
  - vm_compute. left.
  - vm_compute. left.
Defined.

(** C3 does not hold for every call.  Call 1, with keys 5, 5, 5, takes the
    lock while call 0 has 5 in flight; its three occurrences resolve to the
    entry that call 0 created, and it returns without its loader ever being
    invoked.  And a call on a fresh [Group[float64, string]] with keys NaN,
    NaN, NaN creates an entry for each occurrence and passes the three keys
    to its loader. *)
Lemma C3_duplicates_of_inflight_key :
  let cf := run ""%string Scenario.overlap_sched (init Scenario.overlap_cs) in
  let th0 := Scenario.thread_at cf 0 (tt, [], Scenario.load_echo) in
  let th1 := Scenario.thread_at cf 1 (tt, [], Scenario.load_echo) in
  let nf := run ""%string Scenario.nan_dup_sched (init Scenario.nan_dup_cs) in
  let nth := Scenario.fthread_at nf 0 (tt, [], Scenario.fload_echo) in
  (t_keys th1 = [5; 5; 5] ∧ returned th1 = true ∧
   calls_of 1 cf.1 = [] ∧ calls cf.1 = [(0%nat, [5])] ∧
   t_ents th1 = [0; 0; 0]%nat ∧ t_miss th1 = [] ∧ t_miss th0 = [0%nat]) ∧
  (t_keys nth = [Scenario.NaN; Scenario.NaN; Scenario.NaN] ∧
   returned nth = true ∧
   t_ents nth = [0; 1; 2]%nat ∧ t_miss nth = [0; 1; 2]%nat ∧
   calls nf.1 = [(0%nat, [Scenario.NaN; Scenario.NaN; Scenario.NaN])]).
Proof. vm_compute. repeat split. Qed.

(** C3 on one call with keys 5, 5, 5 on a fresh group. *)
Lemma C3_duplicates_witness :
  let cf := run ""%string Scenario.dup_sched (init Scenario.dup_cs) in
  let th := Scenario.thread_at cf 0 (tt, [], Scenario.load_echo) in
  t_ents th !! 1%nat = t_ents th !! 2%nat ∧
  calls_of 0 cf.1 = [entKeys (heap cf.1) (t_miss th)] ∧
  NoDup (entKeys (heap cf.1) (t_miss th)) ∧
  calls_of 0 cf.1 = [[5]].
Proof.
  intros cf th.
  destruct (proj1 C3_duplicates Z _ _ _ string ""%string unit Scenario.dup_cs
              Scenario.dup_sched 0%nat th) as [Hsame Hown].
  { vm_compute. reflexivity. }
  { vm_compute. discriminate. }
  destruct Hown as (Hcalls & _ & Hnd & _).
  { intros l. change (l ∈ [0; 0; 0]%nat → l ∈ [0%nat]).
    rewrite !elem_of_cons. tauto. }
  { vm_compute. discriminate. }
  { vm_compute. reflexivity. }
  split_and!.
  - destruct (Hsame 1%nat 2%nat 5) as [_ He]; [vm_compute; reflexivity..|].
    apply He. reflexivity.
  - exact Hcalls.
  - apply Hnd. intros k _. reflexivity.
  - vm_compute. reflexivity.
Defined.

(** C4 on the spec's scenario: key 2 is passed to the loader and omitted. *)
Lemma C4_omitted_key_witness :
  let cf := run ""%string Scenario.one_call_sched (init Scenario.one_call_cs) in
  ∃ res, t_pc (Scenario.thread_at cf 0 (tt, [], Scenario.load_a_c))
           = PReturned (Some res, None) ∧
         res !! 2 = None.
Proof.
  intros cf. eexists. split; [vm_compute; reflexivity|].
  eapply (C4_omitted_key ""%string Scenario.one_call_cs Scenario.one_call_sched
            0%nat (Scenario.thread_at cf 0 (tt, [], Scenario.load_a_c)) _ 2);
    try (vm_compute; reflexivity).
  vm_compute. right. left.
Defined.

(** C5 does not hold for every key: on a fresh [Group[float64, string]], a
    call with the key NaN registers an entry that is pending while the
    registry does not find its key, and after the call has returned the
    registry is not empty: the binding made for the entry is still there. *)
Lemma C5_nan_binding_stays :
  let mid := run ""%string Scenario.nan_registered_sched (init Scenario.nan_cs) in
  let fin := run ""%string Scenario.nan_sched (init Scenario.nan_cs) in
  (heap mid.1 !! 0%nat = Some (new_ent ""%string Scenario.NaN) ∧
   completed (new_ent ""%string Scenario.NaN) = false ∧
   registry mid.1 !! Scenario.NaN = None) ∧
  (returned (Scenario.fthread_at fin 0 (tt, [], Scenario.fload_echo)) = true ∧
   length fin.2 = 1%nat ∧
   dead (registry fin.1) = [(Scenario.NaN, 0%nat)] ∧
   len (registry fin.1) = 1%nat ∧
   registry fin.1 ≠ ∅).
Proof. vm_compute. repeat split. discriminate. Qed.

(** C5 on the overlapping calls: key 5 is registered exactly while its entry
    is pending; when call 0 hands out its load the entry is completed and
    out of the registry, and at the end the registry is empty. *)
Lemma C5_registry_pending_witness :
  let mid := run ""%string Scenario.overlap_loaded_sched (init Scenario.overlap_cs) in
  let fin := run ""%string Scenario.overlap_sched (init Scenario.overlap_cs) in
  (registry mid.1 !! 5 = Some 0%nat ↔
   ∃ en, heap mid.1 !! 0%nat = Some en ∧ key en = 5 ∧ completed en = false) ∧
  registry mid.1 !! 5 = Some 0%nat ∧
  (∃ en, heap (sched_step ""%string mid 0).1 !! 0%nat = Some en ∧
         completed en = true ∧
         registry (sched_step ""%string mid 0).1 !! key en = None) ∧
  registry fin.1 = ∅.
Proof.
  intros mid fin. split_and!.
  - apply (C5_registry_pending ""%string Scenario.overlap_cs
             Scenario.overlap_loaded_sched). reflexivity.
  - vm_compute. reflexivity.
  - eapply (C5_registry_pending ""%string Scenario.overlap_cs
              Scenario.overlap_loaded_sched); vm_compute; first [reflexivity|left].
  - destruct (C5_registry_pending ""%string Scenario.overlap_cs Scenario.overlap_sched)
      as (_ & _ & _ & Hret & _).
    apply Hret.
    + intros t th. destruct t as [|[|t]]; vm_compute; intros [= <-]; reflexivity.
    + intros a _ k _. reflexivity.
Defined.


(** C7 on an empty call next to a loading one. *)
Lemma C7_empty_keys_witness :
  let cf := run ""%string Scenario.empty_sched (init Scenario.empty_cs) in
  let th := Scenario.thread_at cf 0 (tt, [7], Scenario.load_echo) in
  calls_of 0 cf.1 = [] ∧
  t_pc th = PReturned (Some ∅, None).
Proof.
  intros cf th.
  destruct (proj2 (C7_empty_keys ""%string) Scenario.empty_cs Scenario.empty_sched
              0%nat th) as [Hcalls Hret]; try (vm_compute; reflexivity).
  split; [exact Hcalls|]. vm_compute. reflexivity.
Defined.

(** C8 on the overlapping calls: call 0 invoked the loader once with key 5,
    call 1 never. *)
Lemma C8_loader_invocations_witness :
  let cf := run ""%string Scenario.overlap_sched (init Scenario.overlap_cs) in
  calls_of 0 cf.1 = [[5]] ∧ calls_of 1 cf.1 = [].
Proof.
  intros cf. split.
  - destruct (C8_loader_invocations ""%string Scenario.overlap_cs
                Scenario.overlap_sched 0%nat
                (Scenario.thread_at cf 0 (tt, [], Scenario.load_echo)))
      as (Hs & _); [vm_compute; reflexivity|].
    unfold cf. rewrite Hs by (vm_compute; reflexivity). vm_compute. reflexivity.
  - destruct (C8_loader_invocations ""%string Scenario.overlap_cs
                Scenario.overlap_sched 1%nat
                (Scenario.thread_at cf 1 (tt, [], Scenario.load_echo)))
      as (Hs & _); [vm_compute; reflexivity|].
    unfold cf. rewrite Hs by (vm_compute; reflexivity). vm_compute. reflexivity.
Defined.

(** C9 does not hold for every key: on a [Group[float64, string]], two calls
    with the key NaN are in flight at the same time, each with NaN among
    the keys it loads, and each of them invokes its loader with NaN. *)
Lemma C9_nan_key_loaded_twice :
  let mid := run ""%string Scenario.nan_inflight_sched (init Scenario.nan_overlap_cs) in
  let fin := run ""%string Scenario.nan_overlap_sched (init Scenario.nan_overlap_cs) in
  let th0 := Scenario.fthread_at mid 0 (tt, [], Scenario.fload_echo) in
  let th1 := Scenario.fthread_at mid 1 (tt, [], Scenario.fload_echo) in
  (inflight th0 = true ∧ inflight th1 = true ∧
   entKeys (heap mid.1) (t_miss th0) = [Scenario.NaN] ∧
   entKeys (heap mid.1) (t_miss th1) = [Scenario.NaN]) ∧
  (returned (Scenario.fthread_at fin 0 (tt, [], Scenario.fload_echo)) = true ∧
   returned (Scenario.fthread_at fin 1 (tt, [], Scenario.fload_echo)) = true ∧
   calls fin.1 = [(0%nat, [Scenario.NaN]); (1%nat, [Scenario.NaN])]).
Proof. vm_compute. repeat split. Qed.

(** C9 on the overlapping calls: while call 0 has key 5 in flight, call 1
    resolves its three occurrences of 5 to the entry of call 0 and passes
    nothing to its loader; both calls return the same value for 5. *)
Lemma C9_coalescing_witness :
  let mid := run ""%string [0%nat] (init Scenario.overlap_cs) in
  let fin := run ""%string Scenario.overlap_sched (init Scenario.overlap_cs) in
  let th1 := Scenario.thread_at (sched_step ""%string mid 1) 1 (tt, [], Scenario.load_echo) in
  (0%nat ∈ t_ents th1 ∧ 5 ∉ entKeys (heap (sched_step ""%string mid 1).1) (t_miss th1)) ∧
  (∀ t1 t2 th1' th2',
     (sched_step ""%string mid 1).2 !! t1 = Some th1' →
     (sched_step ""%string mid 1).2 !! t2 = Some th2' →
     inflight th1' = true → inflight th2' = true →
     5 ∈ entKeys (heap (sched_step ""%string mid 1).1) (t_miss th1') →
     5 ∈ entKeys (heap (sched_step ""%string mid 1).1) (t_miss th2') → t1 = t2) ∧
  ∀ res0 res1,
    t_pc (Scenario.thread_at fin 0 (tt, [], Scenario.load_echo)) = PReturned (Some res0, None) →
    t_pc (Scenario.thread_at fin 1 (tt, [], Scenario.load_echo)) = PReturned (Some res1, None) →
    res0 !! 5 = res1 !! 5.
Proof.
  intros mid fin th1. split; [|split].
  - destruct (C9_coalescing ""%string Scenario.overlap_cs [0%nat]) as (_ & Hb & _).
    apply (Hb 1%nat (Scenario.thread_at mid 1 (tt, [], Scenario.load_echo)) th1 5 0%nat);
      try (vm_compute; reflexivity).
    vm_compute. left.
  - intros t1 t2 th1' th2' Ht1 Ht2 Hf1 Hf2 Hk1 Hk2.
    destruct (C9_coalescing ""%string Scenario.overlap_cs [0%nat; 1%nat])
      as (Ha & _).
    by apply (Ha t1 t2 th1' th2' 5 Ht1 Ht2 Hf1 Hf2 Hk1 Hk2).
  - intros res0 res1 H0 H1.
    destruct (C9_coalescing ""%string Scenario.overlap_cs Scenario.overlap_sched)
      as (_ & _ & _ & Hsame & _).
    apply (Hsame 0%nat 1%nat _ _ 0%nat 5 res0 res1 eq_refl eq_refl);
      try (vm_compute; reflexivity); try done.
    + vm_compute. left.
    + vm_compute. left.
Defined.

(** C10 on the spec's scenario: key 3 of the result is one of the keys 1, 2, 3
    of the call. *)
Lemma C10_result_keys_witness :
  let cf := run ""%string Scenario.one_call_sched (init Scenario.one_call_cs) in
  let th := Scenario.thread_at cf 0 (tt, [], Scenario.load_a_c) in
  let res : gomap Z string := <[1 := "a"%string]> (<[3 := "c"%string]> ∅) in
  t_pc th = PReturned (Some res, None) ∧ res !! 3 = Some "c"%string ∧ 3 ∈ t_keys th.
Proof.
  intros cf th res. split_and!; [vm_compute; reflexivity..|].
  apply (proj1 (C10_result_keys ""%string) Scenario.one_call_cs
           Scenario.one_call_sched 0%nat th) with (res := res);
    [vm_compute; reflexivity..|].
  exists "c"%string. vm_compute. reflexivity.
Defined.

